(** * DenonHeos: a shallow embedding of [lib/DenonHeos.js]

    The client keeps one TCP connection to a HEOS device, serialises the
    commands it sends, frames the received stream on CR-LF and routes every
    decoded unit either to the event subscribers or to the command that is
    currently awaited.

    Strings are byte strings: a JavaScript string is represented by its
    UTF-8 encoding, one [ascii] per byte. *)

From Stdlib Require Import String Ascii List ZArith Lia Bool Sorted.
From stdpp Require Import base option list strings gmap.

Local Open Scope string_scope.
Set Warnings "-register-all".

(** * Constants of the module *)

Definition PORT : Z := 1255.
Definition DELIMITER : string := String "013" (String "010" EmptyString).
Definition WATCHDOG_INTERVAL : Z := 10000.
Definition SEND_TIMEOUT : Z := 5000.

(** * Node's [querystring]: [escape], [unescape], [stringify], [parse] *)

Module QueryString.

(** The characters [escape] leaves alone: [A-Z a-z 0-9 - _ . ! ~ * ' ( )]. *)
Definition unreserved (c : ascii) : bool :=
  let n := nat_of_ascii c in
  (((65 <=? n) && (n <=? 90)) || ((97 <=? n) && (n <=? 122))
   || ((48 <=? n) && (n <=? 57))
   || (n =? 45) || (n =? 95) || (n =? 46) || (n =? 33) || (n =? 126)
   || (n =? 42) || (n =? 39) || (n =? 40) || (n =? 41))%nat.

Definition hexdigit (n : nat) : ascii :=
  (if n <? 10 then ascii_of_nat (48 + n) else ascii_of_nat (55 + n))%nat.

Definition hexval (c : ascii) : option nat :=
  let n := nat_of_ascii c in
  (if (48 <=? n) && (n <=? 57) then Some (n - 48)
   else if (65 <=? n) && (n <=? 70) then Some (n - 55)
   else if (97 <=? n) && (n <=? 102) then Some (n - 87)
   else None)%nat.

(** [querystring.escape]: every byte that is not unreserved becomes [%XX]
    with upper-case hexadecimal digits. *)
Fixpoint escape (s : string) : string :=
  match s with
  | EmptyString => EmptyString
  | String c t =>
      if unreserved c then String c (escape t)
      else
        let n := nat_of_ascii c in
        String "%" (String (hexdigit (n / 16)%nat)
                      (String (hexdigit (n mod 16)%nat) (escape t)))
  end.

(** [querystring.unescape]: [%XX] with two hexadecimal digits becomes the
    byte; a [%] that is not followed by two hexadecimal digits stays. The
    decoding is on bytes: where Node replaces a decoded sequence that is
    not UTF-8 by U+FFFD, the bytes are kept here. *)
Fixpoint unescape (s : string) : string :=
  match s with
  | EmptyString => EmptyString
  | String c t =>
      if Ascii.eqb c "%" then
        match t with
        | String h (String l rest) =>
            match hexval h, hexval l with
            | Some a, Some b => String (ascii_of_nat (16 * a + b)%nat) (unescape rest)
            | _, _ => String c (unescape t)
            end
        | _ => String c (unescape t)
        end
      else String c (unescape t)
  end.

(** The values a parameter object holds. [stringifyPrimitive] turns a string
    into itself, a boolean into [true] or [false], and anything that is not
    a primitive ([undefined], [null], an object) into the empty string. A
    finite number is written as its decimal text, so it is a [QString] of
    that text here. No command of the module passes an array. *)
Inductive qsvalue : Type :=
| QString (s : string)
| QBoolean (b : bool)
| QNullish.

Definition stringifyPrimitive (v : qsvalue) : string :=
  match v with
  | QString s => s
  | QBoolean true => "true"
  | QBoolean false => "false"
  | QNullish => ""
  end.

(** Concatenation of the fields with the separator between them. *)
Fixpoint join (sep : string) (l : list string) : string :=
  match l with
  | [] => ""
  | [x] => x
  | x :: r => x ++ sep ++ join sep r
  end.

(** A parameter object is the list of its own enumerable properties, in
    the order of [Object.keys]. *)
Definition field (enc : string -> string) (kv : string * qsvalue) : string :=
  enc (fst kv) ++ "=" ++ enc (stringifyPrimitive (snd kv)).

Definition stringify (qs : list (string * qsvalue)) : string :=
  join "&" (map (field escape) qs).

(** What the parameters look like with no encoding at all. *)
Definition raw (qs : list (string * qsvalue)) : string :=
  join "&" (map (field (fun s => s)) qs).

(** ** [parse] *)

(** The first occurrence of the byte [c] splits [s] in two. *)
Fixpoint cut (c : ascii) (s : string) : option (string * string) :=
  match s with
  | EmptyString => None
  | String d t =>
      if Ascii.eqb d c then Some (EmptyString, t)
      else match cut c t with
           | Some (a, b) => Some (String d a, b)
           | None => None
           end
  end.

(** All the segments between occurrences of [c]. *)
Fixpoint segments (c : ascii) (s : string) : list string :=
  match s with
  | EmptyString => [EmptyString]
  | String d t =>
      if Ascii.eqb d c then EmptyString :: segments c t
      else match segments c t with
           | x :: r => String d x :: r
           | [] => [String d EmptyString]
           end
  end.

(** [+] stands for a space in a key or a value. *)
Fixpoint plus_to_space (s : string) : string :=
  match s with
  | EmptyString => EmptyString
  | String c t => String (if Ascii.eqb c "+" then " "%char else c) (plus_to_space t)
  end.

Definition decodeStr (s : string) : string := unescape (plus_to_space s).

(** A property of the parsed object is one string, or, once its key has
    been seen again, the array of all the values in order. *)
Inductive qvalue : Type :=
| One (s : string)
| Many (l : list string).

(** [addKeyValue]. *)
Definition addKeyValue (obj : gmap string qvalue) (key value : string)
  : gmap string qvalue :=
  match obj !! key with
  | None => <[key := One value]> obj
  | Some (One cur) => <[key := Many [cur; value]]> obj
  | Some (Many l) => <[key := Many (l ++ [value])]> obj
  end.

Definition maxKeys : nat := 1000.

Definition keyValue (seg : string) : string * string :=
  match cut "=" seg with
  | Some (k, v) => (decodeStr k, decodeStr v)
  | None => (decodeStr seg, "")
  end.

(** Empty segments between separators are skipped. *)
Definition addSegment (obj : gmap string qvalue) (seg : string)
  : gmap string qvalue :=
  match seg with
  | EmptyString => obj
  | _ => let (k, v) := keyValue seg in addKeyValue obj k v
  end.

Definition parse (qs : string) : gmap string qvalue :=
  match qs with
  | EmptyString => ∅
  | _ => foldl addSegment ∅ (take maxKeys (segments "&" qs))
  end.

(** The pairs [parse] adds, in order. *)
Definition pairs (qs : string) : list (string * string) :=
  match qs with
  | EmptyString => []
  | _ =>
      map keyValue
        (filter (fun seg => negb (String.eqb seg "")) (take maxKeys (segments "&" qs)))
  end.

Definition valuesOf (k : string) (l : list (string * string)) : list string :=
  map snd (filter (fun kv => String.eqb (fst kv) k) l).

Definition collect (vs : list string) : option qvalue :=
  match vs with
  | [] => None
  | [v] => Some (One v)
  | _ => Some (Many vs)
  end.

(** The decoding the specification words: a mapping from strings to
    strings in which a later pair replaces an earlier one with its key. *)
Definition parseLastWins (qs : string) : gmap string string :=
  foldl (fun m kv => <[fst kv := snd kv]> m) ∅ (pairs qs).

(** What a property of the parsed object holds, as a list. *)
Definition vals (o : option qvalue) : list string :=
  match o with
  | None => []
  | Some (One v) => [v]
  | Some (Many l) => l
  end.

(** An array holds at least two values. *)
Definition arrays_ok (obj : gmap string qvalue) : Prop :=
  forall k l, obj !! k = Some (Many l) -> 2 <= length l.

End QueryString.

(** * Decoded documents *)

(** What [JSON.parse] returns. The numbers of the protocol are integers. *)
Inductive json : Type :=
| JNull
| JBool (b : bool)
| JNum (n : Z)
| JStr (s : string)
| JArr (l : list json)
| JObj (fields : list (string * json)).

(** JavaScript's truthiness of a decoded value. *)
Definition truthy (v : json) : bool :=
  match v with
  | JNull => false
  | JBool b => b
  | JNum n => negb (n =? 0)%Z
  | JStr s => negb (String.eqb s "")
  | JArr _ | JObj _ => true
  end.

(** Reading a property of an object literal: when the document repeats a
    key, [JSON.parse] keeps the last one. [None] is [undefined]. *)
Fixpoint getField (k : string) (fields : list (string * json)) : option json :=
  match fields with
  | [] => None
  | (k', v) :: r =>
      match getField k r with
      | Some w => Some w
      | None => if String.eqb k k' then Some v else None
      end
  end.

(** Reading a property named [heos], [payload], [result], [command] or
    [message] of any value but [null]: only an object literal has one. *)
Definition getProp (k : string) (v : json) : option json :=
  match v with
  | JObj fields => getField k fields
  | _ => None
  end.

(** The envelope [_responseParser] builds. *)
Record envelope : Type := Envelope {
  payload : json;
  command : json;
  message : gmap string QueryString.qvalue
}.

Inductive error : Type :=
| UnknownHeosResponse
| NotConnected
| SendTimeout.

(** [_responseParser] returns an envelope or an [Error] object. *)
Inductive response : Type :=
| Decoded (e : envelope)
| Unknown.

(** What is thrown and caught by nobody. *)
Inductive exn : Type :=
| SyntaxError
| TypeError
| UnhandledError.

(** [querystring.parse] of something that is not a string is the empty
    object. *)
Definition parseMessage (m : json) : gmap string QueryString.qvalue :=
  match m with
  | JStr s => QueryString.parse s
  | _ => ∅
  end.

(** [_responseParser({ heos, payload = null })]. Destructuring [null]
    throws. *)
Definition _responseParser (doc : json) : exn + response :=
  match doc with
  | JNull => inl TypeError
  | _ =>
      let heos := getProp "heos" doc in
      let payload := default JNull (getProp "payload" doc) in
      match heos with
      | Some h =>
          if truthy h then
            let command := default JNull (getProp "command" h) in
            let message := default (JStr "") (getProp "message" h) in
            inr (Decoded (Envelope payload command (parseMessage message)))
          else inr Unknown
      | None => inr Unknown
      end
  end.

(** The test [response.command && response.command.startsWith('event/')]
    and the event name [response.command.replace('event/', '')]. *)
Inductive route : Type :=
| RouteEvent (event : string) (m : gmap string QueryString.qvalue)
| RouteReply
| RouteThrows.

Fixpoint dropPrefix (p s : string) : option string :=
  match p, s with
  | EmptyString, _ => Some s
  | String a p', String b s' => if Ascii.eqb a b then dropPrefix p' s' else None
  | String _ _, EmptyString => None
  end.

Definition EVENT_PREFIX : string := "event/".

Definition classify (r : response) : route :=
  match r with
  | Unknown => RouteReply
  | Decoded e =>
      if truthy (command e) then
        match command e with
        | JStr c =>
            match dropPrefix EVENT_PREFIX c with
            | Some event => RouteEvent event (message e)
            | None => RouteReply
            end
        | _ => RouteThrows
        end
      else RouteReply
  end.

(** * The dispatch queue, the framer and the router

    The listeners of the emitter are outside the object: what they do when
    called is not modelled, only what [emit] is given, and that the emitter
    throws when [error] is emitted and has no listener. *)

(** One entry of [_sendQueue]. Its [resolve] and [reject] settle the promise
    of the [send] call numbered [id]; calls are numbered in the order in
    which they are made. *)
Record item : Type := Item {
  id : nat;
  icommand : string;
  qs : list (string * QueryString.qsvalue)
}.

Inductive outcome : Type :=
| Resolved (e : envelope)
| Rejected (err : error).

(** What a listener is called with. *)
Inductive emitted : Type :=
| EmitEvent (event : string) (m : gmap string QueryString.qvalue)
| EmitMessage (m : gmap string QueryString.qvalue).

(** The fields of the object the dispatch code reads and writes, and what
    it has done so far:
    - [written] is what [_socket.write] has been given, with the number of
      the call it came from;
    - [settled] is how the race of each [send] call came out (the first
      settlement of a promise is the only one);
    - [pending] lists the calls whose race has settled and whose [then] or
      [catch] handler has not run yet;
    - [timers] counts the [SEND_TIMEOUT] timers that have fired: they all
      have the same delay, so they fire in the order of the calls;
    - [emits] is what [emit] has been given, [uncaught] what was thrown out
      of a socket handler. *)
Record State : Type := mkState {
  _socket : bool;
  errorListener : bool;
  _sendQueue : list item;
  _currentSendQueueItem : option item;
  _rxBuffer : string;
  nextId : nat;
  timers : nat;
  written : list (nat * string);
  settled : gmap nat outcome;
  pending : list nat;
  emits : list (string * emitted);
  uncaught : list exn
}.

Definition set_socket (b : bool) (s : State) : State :=
  mkState b (errorListener s) (_sendQueue s) (_currentSendQueueItem s)
    (_rxBuffer s) (nextId s) (timers s) (written s) (settled s) (pending s)
    (emits s) (uncaught s).

Definition set_sendQueue (q : list item) (s : State) : State :=
  mkState (_socket s) (errorListener s) q (_currentSendQueueItem s)
    (_rxBuffer s) (nextId s) (timers s) (written s) (settled s) (pending s)
    (emits s) (uncaught s).

Definition set_current (c : option item) (s : State) : State :=
  mkState (_socket s) (errorListener s) (_sendQueue s) c
    (_rxBuffer s) (nextId s) (timers s) (written s) (settled s) (pending s)
    (emits s) (uncaught s).

Definition set_rxBuffer (b : string) (s : State) : State :=
  mkState (_socket s) (errorListener s) (_sendQueue s) (_currentSendQueueItem s)
    b (nextId s) (timers s) (written s) (settled s) (pending s)
    (emits s) (uncaught s).

Definition set_nextId (n : nat) (s : State) : State :=
  mkState (_socket s) (errorListener s) (_sendQueue s) (_currentSendQueueItem s)
    (_rxBuffer s) n (timers s) (written s) (settled s) (pending s)
    (emits s) (uncaught s).

Definition set_timers (n : nat) (s : State) : State :=
  mkState (_socket s) (errorListener s) (_sendQueue s) (_currentSendQueueItem s)
    (_rxBuffer s) (nextId s) n (written s) (settled s) (pending s)
    (emits s) (uncaught s).

Definition set_written (w : list (nat * string)) (s : State) : State :=
  mkState (_socket s) (errorListener s) (_sendQueue s) (_currentSendQueueItem s)
    (_rxBuffer s) (nextId s) (timers s) w (settled s) (pending s)
    (emits s) (uncaught s).

Definition set_settled (m : gmap nat outcome) (p : list nat) (s : State) : State :=
  mkState (_socket s) (errorListener s) (_sendQueue s) (_currentSendQueueItem s)
    (_rxBuffer s) (nextId s) (timers s) (written s) m p
    (emits s) (uncaught s).

Definition set_emits (e : list (string * emitted)) (s : State) : State :=
  mkState (_socket s) (errorListener s) (_sendQueue s) (_currentSendQueueItem s)
    (_rxBuffer s) (nextId s) (timers s) (written s) (settled s) (pending s)
    e (uncaught s).

Definition throw (x : exn) (s : State) : State :=
  mkState (_socket s) (errorListener s) (_sendQueue s) (_currentSendQueueItem s)
    (_rxBuffer s) (nextId s) (timers s) (written s) (settled s) (pending s)
    (emits s) (uncaught s ++ [x]).

(** A fresh object: the constructor's fields, no socket yet. *)
Definition initial : State :=
  mkState false false [] None "" 0 0 [] ∅ [] [] [].

(** Settling the race of call [i]: only the first settlement counts, and it
    queues the handler [send] chained on the race. *)
Definition settle (i : nat) (o : outcome) (s : State) : State :=
  match settled s !! i with
  | Some _ => s
  | None => set_settled (<[i := o]> (settled s)) (pending s ++ [i]) s
  end.

(** [_write]: the line given to the socket, or [not_connected] thrown. *)
Definition requestLine (cmd : string) (q : list (string * QueryString.qsvalue))
  : string :=
  "heos://" ++ cmd ++ "?"
  ++ QueryString.unescape (QueryString.stringify q) ++ DELIMITER.

Definition _write (x : item) (s : State) : option State :=
  if _socket s then
    Some (set_written (written s ++ [(id x, requestLine (icommand x) (qs x))]) s)
  else None.

(** [_nextSendQueueItem]. The call it makes to itself after a failed write
    is the second level of the recursion; [fuel] bounds the levels. *)
Fixpoint nextSendQueueItem (fuel : nat) (s : State) : State :=
  match fuel with
  | O => s
  | S fuel' =>
      match _currentSendQueueItem s with
      | Some _ => s
      | None =>
          match _sendQueue s with
          | [] => s
          | x :: q =>
              let s1 := set_current (Some x) (set_sendQueue q s) in
              match _write x s1 with
              | Some s2 => s2
              | None =>
                  nextSendQueueItem fuel' (settle (id x) (Rejected NotConnected) s1)
              end
          end
      end
  end.

Definition _nextSendQueueItem (s : State) : State :=
  nextSendQueueItem (S (length (_sendQueue s))) s.

(** [emit]: with no listener for it, [error] is thrown by the emitter. *)
Definition emit (name : string) (v : emitted) (s : State) : State + State :=
  let s' := set_emits (emits s ++ [(name, v)]) s in
  if String.eqb name "error" && negb (errorListener s) then inl (throw UnhandledError s')
  else inr s'.

(** [s.split(d)] has more than one element when [d] occurs in [s]; then the
    first element is what precedes the first occurrence, and joining the
    others with [d] again gives what follows it. *)
Fixpoint cutAt (d s : string) : option (string * string) :=
  match dropPrefix d s with
  | Some rest => Some (EmptyString, rest)
  | None =>
      match s with
      | EmptyString => None
      | String c t =>
          match cutAt d t with
          | Some (a, b) => Some (String c a, b)
          | None => None
          end
      end
  end.

Section Framer.

(** [JSON.parse]: [None] when it throws a [SyntaxError]. *)
Variable JSON_parse : string -> option json.

(** The part of [_parseRxBuffer] that follows the decoding of one unit. The
    result says whether the function goes on to call itself. *)
Definition routeResponse (r : response) (s : State) : State * bool :=
  match classify r with
  | RouteThrows => (throw TypeError s, false)
  | RouteEvent event m =>
      match emit "event" (EmitEvent event m) s with
      | inl s1 => (s1, false)
      | inr s1 =>
          match emit event (EmitMessage m) s1 with
          | inl s2 => (s2, false)
          | inr s2 => (s2, true)
          end
      end
  | RouteReply =>
      match _currentSendQueueItem s with
      | Some x =>
          match r with
          | Unknown => (settle (id x) (Rejected UnknownHeosResponse) s, false)
          | Decoded e => (settle (id x) (Resolved e) s, false)
          end
      | None => (s, true)
      end
  end.

(** [_parseRxBuffer]; every call removes a delimiter from the buffer, which
    bounds the calls it makes to itself. *)
Fixpoint parseRxBuffer (fuel : nat) (s : State) : State :=
  match fuel with
  | O => s
  | S fuel' =>
      match cutAt DELIMITER (_rxBuffer s) with
      | None => s
      | Some (rxBufferItem, rest) =>
          let s1 := set_rxBuffer rest s in
          match JSON_parse rxBufferItem with
          | None => throw SyntaxError s1
          | Some doc =>
              match _responseParser doc with
              | inl x => throw x s1
              | inr r =>
                  let (s2, again) := routeResponse r s1 in
                  if again then parseRxBuffer fuel' s2 else s2
              end
          end
      end
  end.

Definition _parseRxBuffer (s : State) : State :=
  parseRxBuffer (String.length (_rxBuffer s)) s.

(** The socket's [data] handler. *)
Definition onData (chunk : string) (s : State) : State :=
  _parseRxBuffer (set_rxBuffer (_rxBuffer s ++ chunk) s).

(** The synchronous part of [send]: the executor of the first promise of
    the race. The call is numbered, and its timer is started. *)
Definition send (cmd : string) (q : list (string * QueryString.qsvalue))
  (s : State) : nat * State :=
  let i := nextId s in
  let s1 := set_nextId (S i) s in
  let s2 := set_sendQueue (_sendQueue s1 ++ [Item i cmd q]) s1 in
  (i, _nextSendQueueItem s2).

(** The handler [send] chains on the race, the same after a result and
    after an error. *)
Definition afterRace (s : State) : State :=
  _nextSendQueueItem (set_current None s).

(** The microtasks: the handlers of the settled races run, in the order of
    settlement, until none is left. A handler takes at most one entry off
    the queue, and only then can it settle another race. *)
Fixpoint drain (fuel : nat) (s : State) : State :=
  match fuel with
  | O => s
  | S fuel' =>
      match pending s with
      | [] => s
      | _ :: p => drain fuel' (afterRace (set_settled (settled s) p s))
      end
  end.

Definition runMicrotasks (s : State) : State :=
  drain (2 * length (_sendQueue s) + length (pending s)) s.

(** The callback of the oldest timer that has not fired yet. *)
Definition onTimeout (s : State) : State :=
  if (timers s <? nextId s)%nat then
    settle (timers s) (Rejected SendTimeout) (set_timers (S (timers s)) s)
  else s.

(** One turn of the event loop: a caller that submits commands one after
    the other, a chunk from the socket, a timer, or the socket appearing or
    going away. The microtasks run at the end of each turn. *)
Inductive task : Type :=
| Submit (cmds : list (string * list (string * QueryString.qsvalue)))
| Data (chunk : string)
| Timeout
| Socket (present : bool).

Definition submit (cmds : list (string * list (string * QueryString.qsvalue)))
  (s : State) : State :=
  foldl (fun st c => snd (send (fst c) (snd c) st)) s cmds.

Definition turn (t : task) (s : State) : State :=
  runMicrotasks
    match t with
    | Submit cmds => submit cmds s
    | Data chunk => onData chunk s
    | Timeout => onTimeout s
    | Socket b => set_socket b s
    end.

Definition run (ts : list task) (s : State) : State :=
  foldl (fun st t => turn t st) s ts.

(** A unit of the stream that the device sends as the reply to a command:
    it holds no delimiter, it decodes to the envelope [e], and [e] is not
    an event. *)
Definition isReply (ue : string * envelope) : Prop :=
  cutAt DELIMITER (fst ue) = None
  /\ (exists doc, JSON_parse (fst ue) = Some doc
                  /\ _responseParser doc = inr (Decoded (snd ue)))
  /\ classify (Decoded (snd ue)) = RouteReply.

Definition replyChunk (ue : string * envelope) : task :=
  Data (fst ue ++ DELIMITER).

End Framer.

(** The entries [send] makes for a list of commands, numbered from [n]. *)
Fixpoint itemsFrom (n : nat) (cmds : list (string * list (string * QueryString.qsvalue)))
  : list item :=
  match cmds with
  | [] => []
  | c :: r => Item n (fst c) (snd c) :: itemsFrom (S n) r
  end.

(** What the socket is given for an entry. *)
Definition wline (x : item) : nat * string :=
  (id x, requestLine (icommand x) (qs x)).

(** ** The commands of the interface *)

(** The values [playerGetPlayers] tests: [undefined], [null], or an object,
    here the promise a caller gets for the payload of the call [call]. *)
Inductive jsvalue : Type :=
| VUndefined
| VNull
| VPayloadOf (call : nat).

Definition toBoolean (v : jsvalue) : bool :=
  match v with
  | VUndefined | VNull => false
  | VPayloadOf _ => true
  end.

(** [playerGetPlayers]: [players] is the promise that [then] returns. *)
Definition playerGetPlayers (s : State) : jsvalue * State :=
  let (i, s1) := send "player/get_players" [] s in
  let players := VPayloadOf i in
  if toBoolean players then (players, s1)
  else
    let (j, s2) := send "player/get_players" [] s1 in
    (VPayloadOf j, s2).

(** How the promise for the payload of a call has settled, if it has. *)
Definition payloadOutcome (s : State) (v : jsvalue) : option (json + error) :=
  match v with
  | VPayloadOf i =>
      match settled s !! i with
      | Some (Resolved e) => Some (inl (payload e))
      | Some (Rejected err) => Some (inr err)
      | None => None
      end
  | _ => None
  end.

(** ** What holds of the dispatch queue at every moment *)

(** The calls whose entry is still in the object: the awaited one, then the
    queued ones. *)
Definition held (s : State) : list item :=
  match _currentSendQueueItem s with
  | Some c => c :: _sendQueue s
  | None => _sendQueue s
  end.

(** The commands submitted by a list of turns, in order: the call numbered
    [i] is the one at position [i]. *)
Definition submissions (ts : list task)
  : list (string * list (string * QueryString.qsvalue)) :=
  concat (map (fun t => match t with Submit cmds => cmds | _ => [] end) ts).

(** Either no handler is waiting to run and the awaited call, if any, has
    not settled; or the awaited call has settled and its handler is the one
    waiting to run. *)
Definition shape (s : State) : Prop :=
  (pending s = []
   /\ forall c, _currentSendQueueItem s = Some c -> settled s !! id c = None)
  \/ (exists c, _currentSendQueueItem s = Some c
                /\ pending s = [id c] /\ is_Some (settled s !! id c)).

(** [k] calls have come and gone; the entries still held are the calls
    from [k] on, in order, and only the first of them can have settled or
    have been written. *)
Record core (subs : list (string * list (string * QueryString.qsvalue)))
  (k : nat) (s : State) : Prop := mkCore {
  core_ids : map id (held s) = seq k (nextId s - k);
  core_k : k <= nextId s;
  core_next : nextId s = length subs;
  core_items : forall x, x ∈ held s -> subs !! id x = Some (icommand x, qs x);
  core_done : forall j, j < k -> is_Some (settled s !! j);
  core_queue : forall x, x ∈ _sendQueue s -> settled s !! id x = None;
  core_fresh : forall j, nextId s <= j -> settled s !! j = None;
  core_timers : timers s <= nextId s
                /\ forall j, j < timers s -> is_Some (settled s !! j);
  core_sorted : StronglySorted lt (map fst (written s));
  core_written : forall i d, (i, d) ∈ written s ->
      i < k + match _currentSendQueueItem s with Some _ => 1 | None => 0 end
      /\ exists c q, subs !! i = Some (c, q) /\ d = requestLine c q
}.

(** What holds between two turns of the event loop. *)
Definition invariant (subs : list (string * list (string * QueryString.qsvalue)))
  (s : State) : Prop :=
  exists k, core subs k s /\ shape s /\ pending s = []
            /\ (_currentSendQueueItem s = None -> _sendQueue s = []).

(** Two states in which the dispatch queue is the same: they differ at most
    in the receive buffer, in what was emitted and in what was thrown. *)
Definition sameQueue (s s' : State) : Prop :=
  _socket s' = _socket s /\ _sendQueue s' = _sendQueue s
  /\ _currentSendQueueItem s' = _currentSendQueueItem s
  /\ nextId s' = nextId s /\ timers s' = timers s /\ written s' = written s
  /\ settled s' = settled s /\ pending s' = pending s.

(** * A decoder for the examples

    [JSON.parse] is a parameter of the development; the examples need one
    that runs. This one reads the JSON documents whose numbers are integers
    and whose strings have no [\u] escape, and fails on everything else. *)

Module Json.

Definition isSpace (c : ascii) : bool :=
  let n := nat_of_ascii c in ((n =? 32) || (n =? 9) || (n =? 10) || (n =? 13))%nat.

Definition isDigit (c : ascii) : bool :=
  let n := nat_of_ascii c in ((48 <=? n) && (n <=? 57))%nat.

Fixpoint skip (s : string) : string :=
  match s with
  | String c t => if isSpace c then skip t else s
  | EmptyString => s
  end.

(** The characters of a string literal, after its opening quote. *)
Fixpoint chars (s : string) : option (string * string) :=
  match s with
  | EmptyString => None
  | String c t =>
      if Ascii.eqb c "034" then Some (EmptyString, t)
      else if Ascii.eqb c "\" then
        match t with
        | String e r =>
            let plain (x : ascii) :=
              match chars r with
              | Some (a, b) => Some (String x a, b)
              | None => None
              end in
            if Ascii.eqb e "034" then plain "034"%char
            else if Ascii.eqb e "\" then plain "\"%char
            else if Ascii.eqb e "/" then plain "/"%char
            else if Ascii.eqb e "n" then plain "010"%char
            else if Ascii.eqb e "r" then plain "013"%char
            else if Ascii.eqb e "t" then plain "009"%char
            else if Ascii.eqb e "b" then plain "008"%char
            else if Ascii.eqb e "f" then plain "012"%char
            else None
        | EmptyString => None
        end
      else if (nat_of_ascii c <? 32)%nat then None
      else match chars t with
           | Some (a, b) => Some (String c a, b)
           | None => None
           end
  end.

Fixpoint digits (acc : Z) (s : string) : Z * string :=
  match s with
  | String c t =>
      if isDigit c then digits (10 * acc + Z.of_nat (nat_of_ascii c - 48)) t
      else (acc, s)
  | EmptyString => (acc, s)
  end.

Definition number (s : string) : option (json * string) :=
  match s with
  | String c t =>
      if Ascii.eqb c "-" then
        match t with
        | String d _ =>
            if isDigit d then let (n, r) := digits 0 t in Some (JNum (- n), r)
            else None
        | EmptyString => None
        end
      else if isDigit c then let (n, r) := digits 0 s in Some (JNum n, r)
      else None
  | EmptyString => None
  end.

Definition literal (w : string) (v : json) (s : string) : option (json * string) :=
  match dropPrefix w s with
  | Some r => Some (v, r)
  | None => None
  end.

Fixpoint value (fuel : nat) (s : string) : option (json * string) :=
  match fuel with
  | O => None
  | S n =>
      match skip s with
      | EmptyString => None
      | String c t as s' =>
          if Ascii.eqb c "034" then
            match chars t with
            | Some (a, r) => Some (JStr a, r)
            | None => None
            end
          else if Ascii.eqb c "[" then
            match skip t with
            | String "]" r => Some (JArr [], r)
            | _ =>
                match elements n t with
                | Some (l, r) => Some (JArr l, r)
                | None => None
                end
            end
          else if Ascii.eqb c "{" then
            match skip t with
            | String "}" r => Some (JObj [], r)
            | _ =>
                match members n t with
                | Some (l, r) => Some (JObj l, r)
                | None => None
                end
            end
          else if Ascii.eqb c "n" then literal "null" JNull s'
          else if Ascii.eqb c "t" then literal "true" (JBool true) s'
          else if Ascii.eqb c "f" then literal "false" (JBool false) s'
          else number s'
      end
  end
with elements (fuel : nat) (s : string) : option (list json * string) :=
  match fuel with
  | O => None
  | S n =>
      match value n s with
      | Some (v, r) =>
          match skip r with
          | String "," r' =>
              match elements n r' with
              | Some (l, r'') => Some (v :: l, r'')
              | None => None
              end
          | String "]" r' => Some ([v], r')
          | _ => None
          end
      | None => None
      end
  end
with members (fuel : nat) (s : string) : option (list (string * json) * string) :=
  match fuel with
  | O => None
  | S n =>
      match skip s with
      | String "034" t =>
          match chars t with
          | Some (k, r) =>
              match skip r with
              | String ":" r1 =>
                  match value n r1 with
                  | Some (v, r2) =>
                      match skip r2 with
                      | String "," r3 =>
                          match members n r3 with
                          | Some (l, r4) => Some ((k, v) :: l, r4)
                          | None => None
                          end
                      | String "}" r3 => Some ([(k, v)], r3)
                      | _ => None
                      end
                  | None => None
                  end
              | _ => None
              end
          | None => None
          end
      | _ => None
      end
  end.

Definition parse (s : string) : option json :=
  match value (S (String.length s)) s with
  | Some (v, r) =>
      match skip r with
      | EmptyString => Some v
      | _ => None
      end
  | None => None
  end.

End Json.

(** The examples write a document with ['] where it has a double quote. *)
Fixpoint dq (s : string) : string :=
  match s with
  | EmptyString => EmptyString
  | String c t => String (if Ascii.eqb c "'" then "034"%char else c) (dq t)
  end.

(** ** The data of the examples *)

Definition volumeReply : string :=
  dq "{'heos': {'command': 'player/get_volume', 'result': 'success', 'message': 'pid=1&level=50'}}".

Definition muteReply : string :=
  dq "{'heos': {'command': 'player/get_mute', 'result': 'success', 'message': 'pid=1&state=off'}}".

Definition volumeEvent : string :=
  dq "{'heos': {'command': 'event/player_volume_changed', 'message': 'pid=1&level=51&mute=off'}}".

Definition volumeEnvelope : envelope :=
  Envelope JNull (JStr "player/get_volume") (QueryString.parse "pid=1&level=50").

Definition muteEnvelope : envelope :=
  Envelope JNull (JStr "player/get_mute") (QueryString.parse "pid=1&state=off").

Definition volumeChanged : envelope :=
  Envelope JNull (JStr "event/player_volume_changed")
    (QueryString.parse "pid=1&level=51&mute=off").

Definition twoCommands : list (string * list (string * QueryString.qsvalue)) :=
  [("player/get_volume", [("pid", QueryString.QString "1")]);
   ("player/get_mute", [("pid", QueryString.QString "1")])].

Definition twoReplies : list (string * envelope) :=
  [(volumeReply, volumeEnvelope); (muteReply, muteEnvelope)].

Definition playersReply : string :=
  dq "{'heos': {'command': 'player/get_players', 'result': 'success', 'message': ''}, 'payload': [{'name': 'Kitchen', 'pid': 1}]}".

Definition playersEnvelope : envelope :=
  Envelope (JArr [JObj [("name", JStr "Kitchen"); ("pid", JNum 1)]])
    (JStr "player/get_players") ∅.

(** A connection on which nothing has been sent. *)
Definition idleState : State := run Json.parse [Socket true] initial.

(** A connection on which [player/get_volume] is awaited. *)
Definition awaitingState : State :=
  run Json.parse
    [Socket true; Submit [("player/get_volume", [("pid", QueryString.QString "1")])]]
    initial.

(** A connection on which [player/get_volume] is awaited and
    [player/get_mute] is queued. *)
Definition queuedTurns : list task := [Socket true; Submit twoCommands].

Definition queuedState : State := run Json.parse queuedTurns initial.

(** * The connection, its watchdog and the reconnect cycle *)

Module Connection.

Inductive cstate : Type :=
| disconnected
| connecting
| connected
| disconnecting.

Definition stateName (st : cstate) : string :=
  match st with
  | disconnected => "disconnected"
  | connecting => "connecting"
  | connected => "connected"
  | disconnecting => "disconnecting"
  end.

Inductive cerror : Type :=
| Closed
| SocketError
| HandshakeError
| NullSocket.

(** How a promise has settled. *)
Inductive presult : Type :=
| Fulfilled
| RejectedWith (e : cerror).

(** The code that waits for a promise: the rest of an [async] function
    after an [await], or a handler given to [then] or [catch]. The number
    is the promise the waiting code settles in the end. *)
Inductive kont : Type :=
| KAdopt (caller : nat)
| KConnectResume (caller : nat)
| KDisconnectResume (caller : nat)
| KReconnectStart (rp : nat)
| KReconnectConnect (rp : nat)
| KReconnectDone (rp : nat)
| KWatchdogDone.

(** A socket made by [new Socket()]: [owner] is the promise whose [resolve]
    and [reject] its handlers hold, [closeWaiter] the promise of the
    [once('close')] listener of [_disconnect], [handshake] says that the
    connect callback has run and its command is awaited, [ended] that
    [end()] was called, [closed] that [close] was emitted. *)
Record sock : Type := mkSock {
  owner : nat;
  closeWaiter : option nat;
  handshake : bool;
  ended : bool;
  closed : bool
}.

(** The fields of the object and what the code has done: [sockets] are the
    sockets made so far, [intervals] the timers made by [setInterval] with
    whether each is still active, [promises] the settled promises,
    [reactions] the code waiting for a promise, [jobs] the microtasks,
    [probing] whether the command of the watchdog is awaited. *)
Record Conn : Type := mkConn {
  _state : cstate;
  _socket : option nat;
  _connectPromise : option nat;
  _disconnectPromise : option nat;
  _reconnectPromise : option nat;
  _watchdog : option nat;
  _watchdogPromise : option nat;
  probing : bool;
  sockets : list sock;
  intervals : list bool;
  promises : gmap nat presult;
  nextPromise : nat;
  reactions : list (nat * kont);
  jobs : list (kont * presult);
  emits : list string;
  uncaught : list cerror
}.

Definition set_state (v : cstate) (s : Conn) : Conn :=
  mkConn v (_socket s) (_connectPromise s) (_disconnectPromise s)
    (_reconnectPromise s) (_watchdog s) (_watchdogPromise s) (probing s)
    (sockets s) (intervals s) (promises s) (nextPromise s) (reactions s)
    (jobs s) (emits s) (uncaught s).

Definition set_socket (v : option nat) (s : Conn) : Conn :=
  mkConn (_state s) v (_connectPromise s) (_disconnectPromise s)
    (_reconnectPromise s) (_watchdog s) (_watchdogPromise s) (probing s)
    (sockets s) (intervals s) (promises s) (nextPromise s) (reactions s)
    (jobs s) (emits s) (uncaught s).

Definition set_connectPromise (v : option nat) (s : Conn) : Conn :=
  mkConn (_state s) (_socket s) v (_disconnectPromise s) (_reconnectPromise
    s) (_watchdog s) (_watchdogPromise s) (probing s) (sockets s) (intervals
    s) (promises s) (nextPromise s) (reactions s) (jobs s) (emits s)
    (uncaught s).

Definition set_disconnectPromise (v : option nat) (s : Conn) : Conn :=
  mkConn (_state s) (_socket s) (_connectPromise s) v (_reconnectPromise s)
    (_watchdog s) (_watchdogPromise s) (probing s) (sockets s) (intervals s)
    (promises s) (nextPromise s) (reactions s) (jobs s) (emits s) (uncaught
    s).

Definition set_reconnectPromise (v : option nat) (s : Conn) : Conn :=
  mkConn (_state s) (_socket s) (_connectPromise s) (_disconnectPromise s) v
    (_watchdog s) (_watchdogPromise s) (probing s) (sockets s) (intervals s)
    (promises s) (nextPromise s) (reactions s) (jobs s) (emits s) (uncaught
    s).

Definition set_watchdog (v : option nat) (s : Conn) : Conn :=
  mkConn (_state s) (_socket s) (_connectPromise s) (_disconnectPromise s)
    (_reconnectPromise s) v (_watchdogPromise s) (probing s) (sockets s)
    (intervals s) (promises s) (nextPromise s) (reactions s) (jobs s) (emits
    s) (uncaught s).

Definition set_watchdogPromise (v : option nat) (s : Conn) : Conn :=
  mkConn (_state s) (_socket s) (_connectPromise s) (_disconnectPromise s)
    (_reconnectPromise s) (_watchdog s) v (probing s) (sockets s) (intervals
    s) (promises s) (nextPromise s) (reactions s) (jobs s) (emits s)
    (uncaught s).

Definition set_probing (v : bool) (s : Conn) : Conn :=
  mkConn (_state s) (_socket s) (_connectPromise s) (_disconnectPromise s)
    (_reconnectPromise s) (_watchdog s) (_watchdogPromise s) v (sockets s)
    (intervals s) (promises s) (nextPromise s) (reactions s) (jobs s) (emits
    s) (uncaught s).

Definition set_sockets (v : list sock) (s : Conn) : Conn :=
  mkConn (_state s) (_socket s) (_connectPromise s) (_disconnectPromise s)
    (_reconnectPromise s) (_watchdog s) (_watchdogPromise s) (probing s) v
    (intervals s) (promises s) (nextPromise s) (reactions s) (jobs s) (emits
    s) (uncaught s).

Definition set_intervals (v : list bool) (s : Conn) : Conn :=
  mkConn (_state s) (_socket s) (_connectPromise s) (_disconnectPromise s)
    (_reconnectPromise s) (_watchdog s) (_watchdogPromise s) (probing s)
    (sockets s) v (promises s) (nextPromise s) (reactions s) (jobs s) (emits
    s) (uncaught s).

Definition set_promises (v : gmap nat presult) (s : Conn) : Conn :=
  mkConn (_state s) (_socket s) (_connectPromise s) (_disconnectPromise s)
    (_reconnectPromise s) (_watchdog s) (_watchdogPromise s) (probing s)
    (sockets s) (intervals s) v (nextPromise s) (reactions s) (jobs s)
    (emits s) (uncaught s).

Definition set_nextPromise (v : nat) (s : Conn) : Conn :=
  mkConn (_state s) (_socket s) (_connectPromise s) (_disconnectPromise s)
    (_reconnectPromise s) (_watchdog s) (_watchdogPromise s) (probing s)
    (sockets s) (intervals s) (promises s) v (reactions s) (jobs s) (emits
    s) (uncaught s).

Definition set_reactions (v : list (nat * kont)) (s : Conn) : Conn :=
  mkConn (_state s) (_socket s) (_connectPromise s) (_disconnectPromise s)
    (_reconnectPromise s) (_watchdog s) (_watchdogPromise s) (probing s)
    (sockets s) (intervals s) (promises s) (nextPromise s) v (jobs s) (emits
    s) (uncaught s).

Definition set_jobs (v : list (kont * presult)) (s : Conn) : Conn :=
  mkConn (_state s) (_socket s) (_connectPromise s) (_disconnectPromise s)
    (_reconnectPromise s) (_watchdog s) (_watchdogPromise s) (probing s)
    (sockets s) (intervals s) (promises s) (nextPromise s) (reactions s) v
    (emits s) (uncaught s).

Definition set_emits (v : list string) (s : Conn) : Conn :=
  mkConn (_state s) (_socket s) (_connectPromise s) (_disconnectPromise s)
    (_reconnectPromise s) (_watchdog s) (_watchdogPromise s) (probing s)
    (sockets s) (intervals s) (promises s) (nextPromise s) (reactions s)
    (jobs s) v (uncaught s).

Definition set_uncaught (v : list cerror) (s : Conn) : Conn :=
  mkConn (_state s) (_socket s) (_connectPromise s) (_disconnectPromise s)
    (_reconnectPromise s) (_watchdog s) (_watchdogPromise s) (probing s)
    (sockets s) (intervals s) (promises s) (nextPromise s) (reactions s)
    (jobs s) (emits s) v.

Definition initial : Conn :=
  mkConn disconnected None None None None None None false [] [] ∅ 0 [] [] [] [].

(** ** Promises *)

Definition newPromise (s : Conn) : nat * Conn :=
  (nextPromise s, set_nextPromise (S (nextPromise s)) s).

(** Settling a promise a second time does nothing; the first time, the code
    waiting for it becomes microtasks, in the order in which it was
    registered. *)
Definition settleP (p : nat) (r : presult) (s : Conn) : Conn :=
  match promises s !! p with
  | Some _ => s
  | None =>
      let woken := filter (fun pk => Nat.eqb (fst pk) p) (reactions s) in
      let asleep := filter (fun pk => negb (Nat.eqb (fst pk) p)) (reactions s) in
      set_jobs (jobs s ++ map (fun pk => (snd pk, r)) woken)
        (set_reactions asleep (set_promises (<[p := r]> (promises s)) s))
  end.

(** [p.then(k, k)] and [await p]. *)
Definition onSettled (p : nat) (k : kont) (s : Conn) : Conn :=
  match promises s !! p with
  | Some r => set_jobs (jobs s ++ [(k, r)]) s
  | None => set_reactions (reactions s ++ [(p, k)]) s
  end.

(** [await v] and [return v] of an [async] function for a [v] that may be
    [null]: what is not a promise counts as fulfilled. *)
Definition awaitValue (v : option nat) (k : kont) (s : Conn) : Conn :=
  match v with
  | Some p => onSettled p k s
  | None => set_jobs (jobs s ++ [(k, Fulfilled)]) s
  end.

Definition emit (name : string) (s : Conn) : Conn :=
  set_emits (emits s ++ [name]) s.

Definition _setState (st : cstate) (s : Conn) : Conn :=
  emit "state" (emit (stateName st) (set_state st s)).

(** ** [_connect] *)

(** From [new Promise] to the end of [_connect]. *)
Definition connectBody (caller : nat) (s : Conn) : Conn :=
  let (p, s1) := newPromise s in
  let s2 := _setState connecting s1 in
  let sid := length (sockets s2) in
  let s3 := set_sockets (sockets s2 ++ [mkSock p None false false false]) s2 in
  let s4 := set_socket (Some sid) s3 in
  let s5 := set_connectPromise (Some p) s4 in
  onSettled p (KAdopt caller) s5.

(** [caller] is the promise the [async] function hands to whoever called
    it. *)
Definition _connect (caller : nat) (s : Conn) : Conn :=
  match _state s with
  | connected => settleP caller Fulfilled s
  | connecting => awaitValue (_connectPromise s) (KAdopt caller) s
  | disconnecting => awaitValue (_disconnectPromise s) (KConnectResume caller) s
  | disconnected => connectBody caller s
  end.

Definition connect (s : Conn) : nat * Conn :=
  let (caller, s1) := newPromise s in (caller, _connect caller s1).

(** ** [_disconnect] and [disconnect] *)

Definition updateSock (sid : nat) (f : sock -> sock) (s : Conn) : Conn :=
  match sockets s !! sid with
  | Some k => set_sockets (<[sid := f k]> (sockets s)) s
  | None => s
  end.

(** From [_setState('disconnecting')] to the end of [_disconnect]. With no
    socket the executor throws and the new promise is rejected. *)
Definition disconnectBody (caller : nat) (s : Conn) : Conn :=
  let s1 := _setState disconnecting s in
  let (d, s2) := newPromise s1 in
  let s3 :=
    match _socket s2 with
    | Some sid =>
        updateSock sid
          (fun k => mkSock (owner k) (Some d) (handshake k) true (closed k)) s2
    | None => settleP d (RejectedWith NullSocket) s2
    end in
  onSettled d (KAdopt caller) (set_disconnectPromise (Some d) s3).

Definition _disconnect (caller : nat) (s : Conn) : Conn :=
  match _state s with
  | disconnected => settleP caller Fulfilled s
  | disconnecting => awaitValue (_disconnectPromise s) (KAdopt caller) s
  | connecting => awaitValue (_connectPromise s) (KDisconnectResume caller) s
  | connected => disconnectBody caller s
  end.

Definition clearInterval (h : nat) (s : Conn) : Conn :=
  set_intervals (<[h := false]> (intervals s)) s.

Definition disconnect (s : Conn) : nat * Conn :=
  let (caller, s1) := newPromise s in
  let s2 :=
    match _watchdog s1 with
    | Some h => clearInterval h s1
    | None => s1
    end in
  (caller, _disconnect caller s2).

(** ** [reconnect] *)

Definition reconnect (s : Conn) : nat * Conn :=
  let (caller, s1) := newPromise s in
  match _reconnectPromise s1 with
  | Some rp => (caller, onSettled rp (KAdopt caller) s1)
  | None =>
      let (rp, s2) := newPromise s1 in
      let s3 := set_jobs (jobs s2 ++ [(KReconnectStart rp, Fulfilled)]) s2 in
      let s4 := set_reconnectPromise (Some rp) s3 in
      (caller, onSettled rp (KAdopt caller) s4)
  end.

(** ** The microtasks *)

Definition runKont (k : kont) (r : presult) (s : Conn) : Conn :=
  match k with
  | KAdopt caller => settleP caller r s
  | KConnectResume caller => connectBody caller s
  | KDisconnectResume caller => disconnectBody caller s
  | KReconnectStart rp =>
      let s1 := emit "reconnecting" s in
      let (d, s2) := newPromise s1 in
      onSettled d (KReconnectConnect rp) (_disconnect d s2)
  | KReconnectConnect rp =>
      let (c, s1) := newPromise s in
      onSettled c (KReconnectDone rp) (_connect c s1)
  | KReconnectDone rp =>
      match r with
      | Fulfilled =>
          settleP rp Fulfilled (set_reconnectPromise None (emit "reconnected" s))
      | RejectedWith e =>
          settleP rp r (set_reconnectPromise None (emit "reconnect_error" s))
      end
  | KWatchdogDone => set_watchdogPromise None s
  end.

Fixpoint runJobs (fuel : nat) (s : Conn) : Conn :=
  match fuel with
  | O => s
  | S fuel' =>
      match jobs s with
      | [] => s
      | (k, r) :: rest => runJobs fuel' (runKont k r (set_jobs rest s))
      end
  end.

(** Work left in a waiting piece of code: an upper bound, in microtasks,
    on what running it can start. *)
Definition weight (k : kont) : nat :=
  match k with
  | KAdopt _ | KReconnectDone _ | KWatchdogDone => 1
  | KConnectResume _ | KDisconnectResume _ => 2
  | KReconnectConnect _ => 5
  | KReconnectStart _ => 9
  end.

Definition work (s : Conn) : nat :=
  list_sum (map (fun j => 2 * weight (fst j)) (jobs s))
  + list_sum (map (fun pk => 2 * weight (snd pk) + 1) (reactions s)).

Definition runMicrotasks (s : Conn) : Conn := runJobs (work s) s.

(** ** The socket's handlers *)

(** The callback given to [connect]: the handshake command is sent. *)
Definition onConnect (sid : nat) (s : Conn) : Conn :=
  updateSock sid
    (fun k => mkSock (owner k) (closeWaiter k) true (ended k) (closed k)) s.

Definition setInterval (s : Conn) : nat * Conn :=
  (length (intervals s), set_intervals (intervals s ++ [true]) s).

(** The two handlers chained on the handshake command. *)
Definition onHandshake (p : nat) (ok : bool) (s : Conn) : Conn :=
  if ok then
    let s1 := _setState connected (set_connectPromise None s) in
    let s2 :=
      match _watchdog s1 with
      | Some _ => s1
      | None => let (h, s') := setInterval s1 in set_watchdog (Some h) s'
      end in
    settleP p Fulfilled s2
  else
    let (caller, s1) := newPromise (set_connectPromise None s) in
    _disconnect caller s1.

Definition onError (p : nat) (s : Conn) : Conn :=
  settleP p (RejectedWith SocketError) s.

(** The [close] handler of [_connect], then the [once('close')] listener of
    [_disconnect] when the socket has one. [removeAllListeners] and
    [destroy] are called on [this._socket], which hears nothing after
    that; with [this._socket] null the handler throws. *)
Definition onClose (k : sock) (s : Conn) : Conn :=
  match _socket s with
  | None => set_uncaught (uncaught s ++ [NullSocket]) s
  | Some cur =>
      let s1 :=
        updateSock cur
          (fun c => mkSock (owner c) (closeWaiter c) (handshake c) (ended c) true) s in
      let s2 := set_connectPromise None (set_socket None s1) in
      let s3 := settleP (owner k) (RejectedWith Closed) (_setState disconnected s2) in
      match closeWaiter k with
      | Some d => settleP d Fulfilled s3
      | None => s3
      end
  end.

(** ** The watchdog *)

Definition _onWatchdog (s : Conn) : Conn :=
  match _watchdogPromise s with
  | Some _ => s
  | None =>
      match _state s with
      | connecting | disconnecting => s
      | _ =>
          let (wp, s1) := newPromise s in
          set_probing true (set_watchdogPromise (Some wp) s1)
      end
  end.

(** The two handlers chained on [playerGetPlayers()]. *)
Definition onProbe (ok : bool) (s : Conn) : Conn :=
  if ok then set_watchdogPromise None s
  else
    let (r, s1) := reconnect (emit "watchdog_error" s) in
    onSettled r KWatchdogDone s1.

(** ** Turns of the event loop *)

(** What can happen: a call of the public interface, an event of a socket
    that still has its listeners, the outcome of the handshake command of a
    socket, a tick of an interval that has not been cleared, the outcome of
    the watchdog's command. An event that cannot happen in a state leaves
    it as it is. How a command settles is the business of the dispatch
    queue above; here its outcome is an event. The socket's [timeout] event
    is left out: the module never sets a timeout on the socket, and its
    [end] handler only logs. *)
Inductive event : Type :=
| CallConnect
| CallDisconnect
| CallReconnect
| SockConnect (sid : nat)
| Handshake (sid : nat) (ok : bool)
| SockError (sid : nat)
| SockClose (sid : nat)
| Tick (h : nat)
| Probe (ok : bool).

Definition handle (e : event) (s : Conn) : Conn :=
  match e with
  | CallConnect => snd (connect s)
  | CallDisconnect => snd (disconnect s)
  | CallReconnect => snd (reconnect s)
  | SockConnect sid =>
      match sockets s !! sid with
      | Some k => if closed k || handshake k then s else onConnect sid s
      | None => s
      end
  | Handshake sid ok =>
      match sockets s !! sid with
      | Some k =>
          if handshake k then
            onHandshake (owner k) ok
              (updateSock sid
                 (fun c => mkSock (owner c) (closeWaiter c) false (ended c) (closed c)) s)
          else s
      | None => s
      end
  | SockError sid =>
      match sockets s !! sid with
      | Some k => if closed k then s else onError (owner k) s
      | None => s
      end
  | SockClose sid =>
      match sockets s !! sid with
      | Some k =>
          if closed k then s
          else
            onClose k
              (updateSock sid
                 (fun c => mkSock (owner c) (closeWaiter c) (handshake c) (ended c) true) s)
      | None => s
      end
  | Tick h =>
      match intervals s !! h with
      | Some true => _onWatchdog s
      | _ => s
      end
  | Probe ok => if probing s then onProbe ok (set_probing false s) else s
  end.

Definition step (e : event) (s : Conn) : Conn := runMicrotasks (handle e s).

Definition run (es : list event) (s : Conn) : Conn :=
  foldl (fun st e => step e st) s es.

(** Changes that touch neither the microtasks nor the waiting code. *)
Definition sameWork (s s' : Conn) : Prop :=
  jobs s' = jobs s /\ reactions s' = reactions s.

(** ** The runs of the examples *)

(** A first connection, up to the end of the handshake. *)
Definition firstConnect : list event :=
  [CallConnect; SockConnect 0; Handshake 0 true].



(** No promise, and no code waiting for a promise, beyond the ones handed
    out so far; no microtask left to run. *)
Definition wellFormed (s : Conn) : Prop :=
  (forall q, nextPromise s <= q -> promises s !! q = None)
  /\ (forall q k, (q, k) ∈ reactions s -> q < nextPromise s)
  /\ jobs s = [].

(** ** The watchdog's timer over a life of the object *)

(** Changes that touch neither [_watchdog] nor the timers. *)
Definition sameTimers (s s' : Conn) : Prop :=
  _watchdog s' = _watchdog s /\ intervals s' = intervals s.

(** No timer was ever made, or one was and [_watchdog] holds its handle. *)
Definition armedOnce (s : Conn) : Prop :=
  (_watchdog s = None /\ intervals s = [])
  \/ (_watchdog s = Some 0 /\ exists b, intervals s = [b]).

(** The only timer has been cleared and [_watchdog] still holds its
    handle. *)
Definition disarmed (s : Conn) : Prop :=
  _watchdog s = Some 0 /\ intervals s = [false].

(** Nothing waits for a promise. *)
Definition quiet (s : Conn) : Prop :=
  wellFormed s /\ reactions s = [].

End Connection.

(** * More of the interface *)

(** [systemRegisterForChangeEvents({ enabled = true } = {})]: [None] is an
    argument that is absent or [undefined], for which the default applies;
    [enabled === true] holds of the boolean [true] only. *)
Definition strictlyTrue (v : option json) : bool :=
  match v with
  | None => true
  | Some (JBool true) => true
  | Some _ => false
  end.

Definition systemRegisterForChangeEvents (enabled : option json) (s : State)
  : nat * State :=
  send "system/register_for_change_events"
    [("enable", QueryString.QString (if strictlyTrue enabled then "on" else "off"))] s.

(** A string with none of the bytes that mean something in a query
    string: [&], [=], [+] and [%]. *)
Fixpoint plain (s : string) : bool :=
  match s with
  | EmptyString => true
  | String c t =>
      negb (Ascii.eqb c "&") && negb (Ascii.eqb c "=") && negb (Ascii.eqb c "+")
      && negb (Ascii.eqb c "%") && plain t
  end.

(** A parameter object as the pairs of strings [stringify] writes. *)
Definition asPairs (q : list (string * QueryString.qsvalue)) : list (string * string) :=
  map (fun kv => (fst kv, QueryString.stringifyPrimitive (snd kv))) q.

(** * Streams of units *)

(** The bytes of a stream: each unit followed by the delimiter, then what
    has arrived of the next unit. *)
Definition frames (units : list string) (tail : string) : string :=
  fold_right (fun u acc => u ++ DELIMITER ++ acc) tail units.

(** A unit that announces the event [name] with the message [m]: it holds
    no delimiter and decodes to an envelope whose command is [event/] and
    the name. [el] says whether [error] has a listener: without one, the
    emitter throws on an event of that name. *)
Definition isEventUnit (JSON_parse : string -> option json) (el : bool)
  (x : string * string * gmap string QueryString.qvalue) : Prop :=
  let '(u, name, m) := x in
  cutAt DELIMITER u = None
  /\ (exists doc p, JSON_parse u = Some doc
        /\ _responseParser doc
           = inr (Decoded (Envelope p (JStr (EVENT_PREFIX ++ name)) m)))
  /\ (name = "error" -> el = true).

(** What the emitter is given for an event. *)
Definition announce (x : string * string * gmap string QueryString.qvalue)
  : list (string * emitted) :=
  let '(_, name, m) := x in
  [("event", EmitEvent name m); (name, EmitMessage m)].

(** * Properties of the query strings *)

Section QueryStringFacts.
Import QueryString.

Lemma hex_roundtrip (c : ascii) :
  hexval (hexdigit (nat_of_ascii c / 16)) = Some (nat_of_ascii c / 16)%nat
  /\ hexval (hexdigit (nat_of_ascii c mod 16)) = Some (nat_of_ascii c mod 16)%nat.
Proof.
  destruct c as [[] [] [] [] [] [] [] []]; vm_compute; split; reflexivity.
Qed.

Lemma byte_recompose (c : ascii) :
  ascii_of_nat (16 * (nat_of_ascii c / 16) + nat_of_ascii c mod 16) = c.
Proof.
  rewrite <- Nat.div_mod by lia. apply ascii_nat_embedding.
Qed.

Lemma unreserved_not_percent (c : ascii) :
  unreserved c = true -> Ascii.eqb c "%" = false.
Proof.
  destruct c as [[] [] [] [] [] [] [] []]; vm_compute; congruence.
Qed.

Lemma append_cons (c : ascii) (a r : string) :
  String c a ++ r = String c (a ++ r).
Proof. reflexivity. Qed.

Lemma append_nil_l (r : string) : "" ++ r = r.
Proof. reflexivity. Qed.

Lemma unescape_plain (c : ascii) (t : string) :
  Ascii.eqb c "%" = false -> unescape (String c t) = String c (unescape t).
Proof. intros H. cbn [unescape]. rewrite H. reflexivity. Qed.

Lemma unescape_hex (h l : ascii) (rest : string) (a b : nat) :
  hexval h = Some a -> hexval l = Some b ->
  unescape (String "%" (String h (String l rest)))
  = String (ascii_of_nat (16 * a + b)) (unescape rest).
Proof. intros Ha Hb. cbn [unescape]. rewrite Ha, Hb. reflexivity. Qed.

Lemma escape_cons (c : ascii) (t : string) :
  escape (String c t)
  = if unreserved c then String c (escape t)
    else String "%" (String (hexdigit (nat_of_ascii c / 16))
                       (String (hexdigit (nat_of_ascii c mod 16)) (escape t))).
Proof. reflexivity. Qed.

(** Decoding undoes the encoding of a prefix and goes on with the rest. *)
Lemma unescape_escape_app (a rest : string) :
  unescape (escape a ++ rest) = a ++ unescape rest.
Proof.
  induction a as [|c a IH]; [reflexivity|].
  rewrite escape_cons.
  destruct (unreserved c) eqn:U.
  - rewrite ?append_cons, ?append_nil_l. rewrite unescape_plain by (apply unreserved_not_percent, U).
    rewrite IH. reflexivity.
  - rewrite ?append_cons, ?append_nil_l. destruct (hex_roundtrip c) as [Ha Hb].
    rewrite (unescape_hex _ _ _ _ _ Ha Hb), byte_recompose, IH. reflexivity.
Qed.

Lemma append_nil_r (a : string) : a ++ "" = a.
Proof.
  induction a as [|c a IH]; [reflexivity|].
  rewrite append_cons, IH. reflexivity.
Qed.

Lemma unescape_escape (a : string) : unescape (escape a) = a.
Proof.
  pose proof (unescape_escape_app a "") as H.
  rewrite !append_nil_r in H. exact H.
Qed.

Lemma append_assoc (a b c : string) : (a ++ b) ++ c = a ++ (b ++ c).
Proof.
  induction a as [|x a IH]; [reflexivity|].
  rewrite !append_cons, IH. reflexivity.
Qed.

(** The separators are not escapes. *)
Lemma unescape_field (kv : string * qsvalue) (rest : string) :
  unescape (field escape kv ++ rest) = field (fun s => s) kv ++ unescape rest.
Proof.
  unfold field. rewrite !append_assoc, unescape_escape_app.
  rewrite !append_cons, !append_nil_l.
  rewrite unescape_plain by reflexivity.
  rewrite unescape_escape_app. reflexivity.
Qed.

Lemma unescape_stringify (q : list (string * qsvalue)) :
  unescape (stringify q) = raw q.
Proof.
  unfold stringify, raw.
  induction q as [|kv q IH]; [reflexivity|].
  destruct q as [|kv' q].
  - cbn [map join]. rewrite <- (append_nil_r (field escape kv)), unescape_field.
    cbn [unescape]. apply append_nil_r.
  - change (unescape (field escape kv ++ "&" ++ join "&" (map (field escape) (kv' :: q)))
            = field (fun s => s) kv ++ "&" ++ join "&" (map (field (fun s => s)) (kv' :: q))).
    rewrite unescape_field. rewrite !append_cons, !append_nil_l.
    rewrite unescape_plain by reflexivity. rewrite IH. reflexivity.
Qed.

Lemma collect_vals (obj : gmap string qvalue) (k : string) :
  arrays_ok obj -> obj !! k = collect (vals (obj !! k)).
Proof.
  intros W. destruct (obj !! k) as [[v|l]|] eqn:E; try reflexivity.
  specialize (W _ _ E). destruct l as [|a [|b l]]; simpl in W; try lia.
  reflexivity.
Qed.

Lemma addKeyValue_same (obj : gmap string qvalue) (k v : string) :
  vals (addKeyValue obj k v !! k) = (vals (obj !! k) ++ [v])%list.
Proof.
  unfold addKeyValue.
  destruct (obj !! k) as [[c|l]|] eqn:E; rewrite lookup_insert_eq; reflexivity.
Qed.

Lemma addKeyValue_other (obj : gmap string qvalue) (k k' v : string) :
  k <> k' -> addKeyValue obj k v !! k' = obj !! k'.
Proof.
  intros N. unfold addKeyValue.
  destruct (obj !! k) as [[c|l]|]; rewrite lookup_insert_ne; auto.
Qed.

Lemma addKeyValue_ok (obj : gmap string qvalue) (k v : string) :
  arrays_ok obj -> arrays_ok (addKeyValue obj k v).
Proof.
  intros W k' l. destruct (decide (k = k')) as [<-|N].
  - unfold addKeyValue. destruct (obj !! k) as [[c|l0]|] eqn:E;
      rewrite lookup_insert_eq; intros [= <-]; simpl; try lia.
    specialize (W _ _ E). rewrite length_app. simpl. lia.
  - rewrite addKeyValue_other by assumption. apply W.
Qed.

Lemma foldl_addSegment (segs : list string) (obj : gmap string qvalue) (k : string) :
  arrays_ok obj ->
  arrays_ok (foldl addSegment obj segs)
  /\ vals (foldl addSegment obj segs !! k)
     = (vals (obj !! k)
        ++ valuesOf k (map keyValue
                         (filter (fun seg => negb (String.eqb seg "")) segs)))%list.
Proof.
  revert obj. induction segs as [|seg segs IH]; intros obj W.
  - split; [assumption|]. unfold valuesOf. simpl. rewrite app_nil_r. reflexivity.
  - cbn [foldl]. destruct seg as [|c t].
    + apply (IH obj W).
    + change (addSegment obj (String c t))
        with (let (k0, v) := keyValue (String c t) in addKeyValue obj k0 v).
      rewrite filter_cons_True by (simpl; exact I).
      cbn [map]. destruct (keyValue (String c t)) as [k0 v] eqn:KV.
      destruct (IH (addKeyValue obj k0 v) (addKeyValue_ok _ _ _ W)) as [W' ->].
      split; [assumption|]. unfold valuesOf. rewrite filter_cons. cbn [fst].
      destruct (decide (k0 = k)) as [->|N].
      * rewrite addKeyValue_same.
        destruct (decide (String.eqb k k)) as [_|B].
        -- cbn [map snd]. rewrite <- app_assoc. reflexivity.
        -- exfalso. apply B. rewrite String.eqb_refl. exact I.
      * rewrite addKeyValue_other by assumption.
        destruct (decide (String.eqb k0 k)) as [B|_]; [|reflexivity].
        exfalso. apply N. apply String.eqb_eq. apply Is_true_true_1, B.
Qed.

Lemma arrays_ok_empty : arrays_ok ∅.
Proof. intros k l. rewrite lookup_empty. discriminate. Qed.

Lemma parse_collects (msg k : string) :
  parse msg !! k = collect (valuesOf k (pairs msg)).
Proof.
  unfold parse, pairs. destruct msg as [|c t]; [reflexivity|].
  destruct (foldl_addSegment (take maxKeys (segments "&" (String c t))) ∅ k
              arrays_ok_empty) as [W E].
  rewrite (collect_vals _ _ W), E. rewrite lookup_empty. reflexivity.
Qed.

End QueryStringFacts.

(** C8, as the specification words it: the parameters would reach the socket
    url-encoded. They do not: [_write] undoes the encoding before it writes,
    so a space in a value is written as a space. *)
Lemma requestLine_not_urlencoded :
  let q := [("pid", QueryString.QString "1"); ("name", QueryString.QString "My List")] in
  QueryString.stringify q = "pid=1&name=My%20List"
  /\ requestLine "player/save_queue" q
     = "heos://player/save_queue?pid=1&name=My List" ++ DELIMITER
  /\ requestLine "player/save_queue" q
     <> "heos://player/save_queue?" ++ QueryString.stringify q ++ DELIMITER.
Proof. vm_compute. repeat split; try reflexivity. discriminate. Qed.

(** C8, amended: every request given to the socket is the scheme [heos://],
    the command, [?], the parameters as [key=value] pairs joined by [&] with
    no encoding left on them, and CR-LF. *)
Theorem write_request_line (x : item) (s : State) :
  _write x s
  = if _socket s then
      Some (set_written
              (written s
               ++ [(id x, "heos://" ++ icommand x ++ "?"
                          ++ QueryString.raw (qs x) ++ DELIMITER)]) s)
    else None.
Proof.
  unfold _write, requestLine. rewrite unescape_stringify. reflexivity.
Qed.

(** C7, as the specification words it: a key that occurs twice would keep
    its last value. [querystring.parse] keeps both, in an array. *)
Lemma parse_duplicate_key_keeps_both :
  QueryString.parse "pid=1&pid=2" !! "pid" = Some (QueryString.Many ["1"; "2"])
  /\ QueryString.parseLastWins "pid=1&pid=2" !! "pid" = Some "2"
  /\ QueryString.parse "pid=1&pid=2" !! "pid"
     <> QueryString.One <$> (QueryString.parseLastWins "pid=1&pid=2" !! "pid").
Proof. vm_compute. repeat split; try reflexivity. discriminate. Qed.

(** C7, amended: decoding the message gives, for every key, nothing when no
    pair has the key, the string of the pair when exactly one has it, and
    the array of all its values in order when several have it; the message
    [pid=1&level=50] decodes to [pid] 1 and [level] 50. *)
Theorem parse_message_values (msg k : string) :
  parseMessage (JStr msg) !! k
  = QueryString.collect (QueryString.valuesOf k (QueryString.pairs msg))
  /\ parseMessage (JStr "pid=1&level=50")
     = <["level" := QueryString.One "50"]> (<["pid" := QueryString.One "1"]> ∅).
Proof.
  split; [apply parse_collects|]. vm_compute. reflexivity.
Qed.

(** * Properties of the router *)

Lemma dropPrefix_app (p r : string) : dropPrefix p (p ++ r) = Some r.
Proof.
  induction p as [|c p IH]; [destruct r; reflexivity|].
  rewrite append_cons. cbn [dropPrefix]. rewrite Ascii.eqb_refl. exact IH.
Qed.

Lemma dropPrefix_Some (p c r : string) : dropPrefix p c = Some r -> c = p ++ r.
Proof.
  revert c. induction p as [|a p IH]; intros c H.
  - destruct c; inversion H; reflexivity.
  - destruct c as [|b c]; [discriminate|]. cbn [dropPrefix] in H.
    destruct (Ascii.eqb a b) eqn:E; [|discriminate].
    apply Ascii.eqb_eq in E. subst b. rewrite append_cons, <- (IH c H). reflexivity.
Qed.



(** * Properties of the dispatch queue *)

Section DispatchFacts.

Variable subs : list (string * list (string * QueryString.qsvalue)).

(** The awaited call settles: its handler is queued, nothing else moves. *)
Lemma settle_current (k : nat) (s : State) (c : item) (o : outcome) :
  core subs k s -> _currentSendQueueItem s = Some c ->
  pending s = [] -> settled s !! id c = None ->
  core subs k (settle (id c) o s) /\ shape (settle (id c) o s)
  /\ settled (settle (id c) o s) !! id c = Some o.
Proof.
  intros C Cur P U. unfold settle. rewrite U.
  destruct s as [sock el q cur buf n t w st p em un]. cbn in *. subst cur p.
  destruct C as [Cids Ck Cn Cit Cd Cq Cf [Ct1 Ct2] Cs Cw]. cbn in *.
  assert (Hidc : id c = k /\ k < n).
  { destruct (n - k) as [|m] eqn:E; cbn in Cids; [discriminate|].
    injection Cids as -> _. lia. }
  split; [|split].
  - constructor; cbn; auto.
    + intros j Hj. apply lookup_insert_is_Some'. right. auto.
    + intros x Hx. rewrite lookup_insert_ne; [auto|].
      intros E. assert (In (id x) (map id q)) as I.
      { apply in_map. apply list_elem_of_In, Hx. }
      destruct (n - k) as [|m] eqn:E'; cbn in Cids; [discriminate|].
      injection Cids as Hc Hq. rewrite Hq in I. apply in_seq in I. lia.
    + intros j Hj. rewrite lookup_insert_ne; [auto|]. lia.
    + split; [auto|]. intros j Hj. apply lookup_insert_is_Some'. right. auto.
  - right. exists c. cbn. rewrite lookup_insert_eq. eauto.
  - cbn. apply lookup_insert_eq.
Qed.

Lemma next_awaiting (fuel : nat) (s : State) :
  is_Some (_currentSendQueueItem s) -> nextSendQueueItem fuel s = s.
Proof.
  intros [c H]. destruct fuel; [reflexivity|]. cbn [nextSendQueueItem].
  rewrite H. reflexivity.
Qed.

(** What [_nextSendQueueItem] does when no call is awaited and no handler
    waits: nothing on an empty queue; otherwise the head of the queue
    becomes the awaited call and is written, or is rejected when there is
    no socket. *)
Lemma next_free (k : nat) (s : State) :
  core subs k s -> _currentSendQueueItem s = None -> pending s = [] ->
  let s' := _nextSendQueueItem s in
  core subs k s' /\ shape s'
  /\ (_currentSendQueueItem s' = None -> _sendQueue s' = [])
  /\ match _sendQueue s with
     | [] => s' = s
     | x :: q =>
         _currentSendQueueItem s' = Some x /\ _sendQueue s' = q
         /\ if _socket s then
              written s' = (written s ++ [(id x, requestLine (icommand x) (qs x))])%list
              /\ pending s' = [] /\ settled s' = settled s
            else
              written s' = written s /\ pending s' = [id x]
              /\ settled s' !! id x = Some (Rejected NotConnected)
     end.
Proof.
  intros C Cur P. unfold _nextSendQueueItem. cbn [nextSendQueueItem].
  rewrite Cur.
  destruct s as [sock el q0 cur buf n t w st p em un]. cbn in *. subst cur p.
  destruct C as [Cids Ck Cn Cit Cd Cq Cf Ct Cs Cw]. cbn in *.
  destruct q0 as [|x q].
  - cbn. split; [|split; [|split]]; auto.
    + constructor; cbn; auto.
    + left. cbn. split; [reflexivity|]. discriminate.
  - assert (U : st !! id x = None) by (apply Cq, list_elem_of_In; left; reflexivity).
    assert (Hsub : subs !! id x = Some (icommand x, qs x))
      by (apply Cit, list_elem_of_In; left; reflexivity).
    assert (Hk : id x = k /\ k < n /\ Forall (fun j => k < j) (map id q)).
    { destruct (n - k) as [|m] eqn:E; cbn in Cids; [discriminate|].
      injection Cids as Hc Hq. split; [auto|]. split; [lia|].
      rewrite Hq. apply Forall_forall. intros j Hj.
      apply list_elem_of_In, in_seq in Hj. lia. }
    destruct Hk as (Hk & Hkn & Hq).
    assert (Wlt : Forall (fun i => i < k) (map fst w)).
    { apply Forall_forall. intros i Hi. apply list_elem_of_In, in_map_iff in Hi.
      destruct Hi as ([i' d] & <- & Hi). apply list_elem_of_In in Hi.
      destruct (Cw _ _ Hi) as [A _]. cbn. lia. }
    assert (Cq' : forall y, y ∈ q -> st !! id y = None).
    { intros y Hy. apply Cq. apply list_elem_of_In. right.
      apply list_elem_of_In, Hy. }
    unfold _write. cbn. destruct sock; cbn.
    + split; [|split; [|split; [|split; [|split; [|split; [|split]]]]]]; auto.
      * constructor; cbn; auto.
        -- rewrite map_app. cbn. clear - Cs Wlt Hk.
           induction w as [|[i d] w IH]; cbn in *.
           ++ constructor; constructor.
           ++ inversion Cs; subst. inversion Wlt; subst. constructor.
              ** apply IH; assumption.
              ** apply Forall_app. split; [assumption|].
                 constructor; [lia|constructor].
        -- intros i d Hi. apply list_elem_of_In, in_app_iff in Hi.
           destruct Hi as [Hi|[Hi|[]]].
           ++ apply list_elem_of_In in Hi. destruct (Cw _ _ Hi) as [A B].
              split; [lia|assumption].
           ++ injection Hi as <- <-. split; [lia|]. eauto.
      * left. cbn. split; [reflexivity|]. intros c [= <-]. exact U.
      * discriminate.
    + unfold settle. cbn. rewrite U. cbn.
      split; [|split; [|split; [|split; [|split; [|split; [|split]]]]]]; auto.
      * constructor; cbn; auto.
        -- intros j Hj. apply lookup_insert_is_Some'. right. auto.
        -- intros y Hy. rewrite lookup_insert_ne; [auto|].
           intros E. rewrite Forall_forall in Hq.
           assert (k < id y) by (apply Hq, list_elem_of_In, in_map, list_elem_of_In, Hy).
           lia.
        -- intros j Hj. rewrite lookup_insert_ne; [auto|]. lia.
        -- destruct Ct as [Ct1 Ct2]. split; [auto|]. intros j Hj.
           apply lookup_insert_is_Some'. right. auto.
        -- intros i d Hi. destruct (Cw _ _ Hi) as [A B]. split; [lia|assumption].
      * right. exists x. cbn. rewrite lookup_insert_eq. eauto.
      * discriminate.
      * apply lookup_insert_eq.
Qed.

(** The handler of the awaited call starts: the call has come and gone. *)
Lemma clear_core (k : nat) (s : State) (c : item) :
  core subs k s -> _currentSendQueueItem s = Some c ->
  is_Some (settled s !! id c) ->
  core subs (S k) (set_current None (set_settled (settled s) [] s)).
Proof.
  intros C Cur St.
  destruct s as [sock el q cur buf n t w st p em un]. cbn in *. subst cur.
  destruct C as [Cids Ck Cn Cit Cd Cq Cf Ct Cs Cw]. cbn in *.
  destruct (n - k) as [|m] eqn:E; cbn in Cids; [discriminate|].
  injection Cids as Hc Hq.
  constructor; cbn; auto.
  - replace (n - S k) with m by lia. assumption.
  - lia.
  - intros x Hx. apply Cit. apply list_elem_of_In. right. apply list_elem_of_In, Hx.
  - intros j Hj. destruct (decide (j = k)) as [->|N]; [rewrite <- Hc; assumption|].
    apply Cd. lia.
  - intros i d Hi. destruct (Cw _ _ Hi) as [A B]. split; [lia|assumption].
Qed.

(** One handler runs. *)
Lemma afterRace_ok (k : nat) (s : State) (c : item) :
  core subs k s -> _currentSendQueueItem s = Some c ->
  pending s = [id c] -> is_Some (settled s !! id c) ->
  let s' := afterRace (set_settled (settled s) [] s) in
  core subs (S k) s' /\ shape s'
  /\ (_currentSendQueueItem s' = None -> _sendQueue s' = [])
  /\ length (_sendQueue s') + length (pending s') <= length (_sendQueue s)
  /\ _currentSendQueueItem s' <> Some c.
Proof.
  intros C Cur P St.
  pose proof (clear_core k s c C Cur St) as C0.
  set (s0 := set_current None (set_settled (settled s) [] s)) in *.
  assert (Hid : id c = k).
  { destruct C as [Cids _ _ _ _ _ _ _ _ _]. unfold held in Cids. rewrite Cur in Cids.
    destruct (nextId s - k); cbn in Cids; [discriminate|]. injection Cids; auto. }
  destruct (next_free (S k) s0 C0 eq_refl eq_refl) as (C1 & S1 & E1 & D).
  unfold afterRace. change (set_current None (set_settled (settled s) [] s)) with s0.
  split; [assumption|]. split; [assumption|]. split; [assumption|].
  change (_sendQueue s0) with (_sendQueue s) in D.
  change (_socket s0) with (_socket s) in D.
  destruct (_sendQueue s) as [|x q] eqn:Q.
  - rewrite D. cbn. rewrite Q. cbn. split; [lia|discriminate].
  - destruct D as (D1 & D2 & D3). rewrite D1, D2. split.
    + destruct (_socket s).
      * destruct D3 as (_ & -> & _). cbn. lia.
      * destruct D3 as (_ & -> & _). cbn. lia.
    + intros [= ->].
      destruct C0 as [Cids _ _ _ _ _ _ _ _ _]. unfold held in Cids.
      change (_currentSendQueueItem s0) with (@None item) in Cids.
      change (_sendQueue s0) with (_sendQueue s) in Cids. rewrite Q in Cids.
      destruct (nextId s0 - S k); cbn in Cids; [discriminate|].
      injection Cids as Hc _. lia.
Qed.

(** The microtasks run until no handler is left. *)
Lemma drain_ok (fuel : nat) : forall (k : nat) (s : State),
  core subs k s -> shape s ->
  (pending s = [] -> _currentSendQueueItem s = None -> _sendQueue s = []) ->
  length (_sendQueue s) + length (pending s) <= fuel ->
  exists k', k <= k' /\ core subs k' (drain fuel s) /\ shape (drain fuel s)
    /\ pending (drain fuel s) = []
    /\ (_currentSendQueueItem (drain fuel s) = None -> _sendQueue (drain fuel s) = [])
    /\ (pending s = [] -> drain fuel s = s).
Proof.
  induction fuel as [|fuel IH]; intros k s C Sh E F.
  - assert (P : pending s = []) by (destruct (pending s); [reflexivity|cbn in F; lia]).
    exists k. cbn. auto 10.
  - cbn [drain]. destruct (pending s) as [|h p] eqn:P.
    + exists k. auto 10.
    + destruct Sh as [[P' _]|(c & Cur & P' & St)]; [congruence|].
      assert (p = []) by congruence. subst p.
      assert (h = id c) by congruence. subst h.
      destruct (afterRace_ok k s c C Cur P St) as (C1 & S1 & E1 & L1 & _).
      destruct (IH (S k) _ C1 S1 (fun _ => E1)) as (k' & Hk & R).
      { cbn in F. lia. }
      exists k'. split; [lia|]. destruct R as (R1 & R2 & R3 & R4 & _).
      split; [assumption|]. split; [assumption|]. split; [assumption|].
      split; [assumption|]. discriminate.
Qed.

Lemma runMicrotasks_ok (k : nat) (s : State) :
  core subs k s -> shape s ->
  (pending s = [] -> _currentSendQueueItem s = None -> _sendQueue s = []) ->
  invariant subs (runMicrotasks s)
  /\ (pending s = [] -> runMicrotasks s = s).
Proof.
  intros C Sh E.
  destruct (drain_ok (2 * length (_sendQueue s) + length (pending s)) k s C Sh E)
    as (k' & _ & C' & S' & P' & E' & I'); [lia|].
  split; [|exact I']. exists k'. auto.
Qed.

End DispatchFacts.

Lemma core_same subs k (s s' : State) :
  sameQueue s s' -> core subs k s -> core subs k s'.
Proof.
  intros (E1 & E2 & E3 & E4 & E5 & E6 & E7 & E8) C.
  destruct s, s'. cbn in *. subst.
  destruct C as [Cids Ck Cn Cit Cd Cq Cf Ct Cs Cw]. constructor; assumption.
Qed.

Lemma shape_same (s s' : State) : sameQueue s s' -> shape s -> shape s'.
Proof.
  intros (E1 & E2 & E3 & E4 & E5 & E6 & E7 & E8) C.
  destruct s, s'. unfold shape in *. cbn in *. subst. exact C.
Qed.

Lemma sameQueue_refl (s : State) : sameQueue s s.
Proof. repeat split. Qed.

Lemma sameQueue_trans (a b c : State) :
  sameQueue a b -> sameQueue b c -> sameQueue a c.
Proof.
  unfold sameQueue. intros (A1 & A2 & A3 & A4 & A5 & A6 & A7 & A8)
    (B1 & B2 & B3 & B4 & B5 & B6 & B7 & B8).
  repeat split; congruence.
Qed.

Lemma held_push (s : State) (x : item) (m : nat) :
  held (set_sendQueue (_sendQueue s ++ [x]) (set_nextId m s))
  = (held s ++ [x])%list.
Proof. unfold held. destruct s as [? ? ? [c|] ? ? ? ? ? ? ? ?]; reflexivity. Qed.

(** A new entry at the tail of the queue. *)
Lemma push_core subs k (s : State) cmd q :
  core subs k s ->
  core (subs ++ [(cmd, q)]) k
    (set_sendQueue (_sendQueue s ++ [Item (nextId s) cmd q])
       (set_nextId (S (nextId s)) s)).
Proof.
  intros C.
  pose proof (held_push s (Item (nextId s) cmd q) (S (nextId s))) as Hheld.
  destruct C as [Cids Ck Cn Cit Cd Cq Cf [Ct1 Ct2] Cs Cw].
  constructor; rewrite ?Hheld.
  - rewrite map_app, Cids. cbn.
    replace (S (nextId s) - k) with (S (nextId s - k)) by lia.
    rewrite seq_S. do 2 f_equal. lia.
  - cbn. lia.
  - cbn. rewrite length_app. cbn. lia.
  - intros x Hx. apply list_elem_of_In, in_app_iff in Hx.
    destruct Hx as [Hx|[<-|[]]].
    + apply lookup_app_l_Some, Cit, list_elem_of_In, Hx.
    + cbn. rewrite Cn. rewrite lookup_app_r by lia. rewrite Nat.sub_diag. reflexivity.
  - cbn. assumption.
  - cbn. intros x Hx. apply list_elem_of_In, in_app_iff in Hx.
    destruct Hx as [Hx|[<-|[]]]; [apply Cq, list_elem_of_In, Hx|].
    cbn. apply Cf. lia.
  - cbn. intros j Hj. apply Cf. lia.
  - cbn. split; [lia|assumption].
  - cbn. assumption.
  - cbn. intros i d Hi. destruct (Cw _ _ Hi) as [A (c & q' & B1 & B2)].
    split; [assumption|]. exists c, q'. split; [|assumption].
    apply lookup_app_l_Some, B1.
Qed.

(** One call of [send]. *)
Lemma send_ok subs k (s : State) cmd q :
  core subs k s -> shape s ->
  let s' := snd (send cmd q s) in
  core (subs ++ [(cmd, q)]) k s' /\ shape s'
  /\ (pending s' = [] -> _currentSendQueueItem s' = None -> _sendQueue s' = [])
  /\ fst (send cmd q s) = length subs.
Proof.
  intros C Sh. pose proof (push_core subs k s cmd q C) as C2.
  unfold send. cbn [fst snd].
  set (s2 := set_sendQueue _ _) in *.
  assert (Hcur : _currentSendQueueItem s2 = _currentSendQueueItem s)
    by (destruct s; reflexivity).
  assert (Hp : pending s2 = pending s) by (destruct s; reflexivity).
  assert (Hs : settled s2 = settled s) by (destruct s; reflexivity).
  assert (Sh2 : shape s2).
  { unfold shape. rewrite Hcur, Hp, Hs. exact Sh. }
  assert (Hn : nextId s = length subs) by (destruct C; assumption).
  destruct (_currentSendQueueItem s) as [c|] eqn:Cur.
  - unfold _nextSendQueueItem. rewrite next_awaiting by (rewrite Hcur; eauto).
    split; [assumption|]. split; [assumption|]. split; [|assumption].
    rewrite Hcur. discriminate.
  - assert (P : pending s2 = []).
    { destruct Sh as [[P _]|(c & ? & _)]; congruence. }
    destruct (next_free _ k s2 C2 Hcur P) as (A1 & A2 & A3 & _).
    split; [assumption|]. split; [assumption|]. split; [|assumption].
    intros _. exact A3.
Qed.

Lemma submit_ok cmds : forall subs k (s : State),
  core subs k s -> shape s ->
  (pending s = [] -> _currentSendQueueItem s = None -> _sendQueue s = []) ->
  core (subs ++ cmds) k (submit cmds s) /\ shape (submit cmds s)
  /\ (pending (submit cmds s) = [] ->
      _currentSendQueueItem (submit cmds s) = None -> _sendQueue (submit cmds s) = []).
Proof.
  induction cmds as [|c cmds IH]; intros subs k s C Sh E.
  - rewrite app_nil_r. cbn. auto.
  - destruct (send_ok subs k s (fst c) (snd c) C Sh) as (C1 & S1 & E1 & _).
    replace (subs ++ c :: cmds)%list with ((subs ++ [(fst c, snd c)]) ++ cmds)%list
      by (rewrite <- app_assoc; destruct c; reflexivity).
    apply (IH _ k _ C1 S1 E1).
Qed.

(** The timer of the oldest call that has none fired yet: when that call
    has not settled, it is the awaited one. *)
Lemma onTimeout_ok subs k (s : State) :
  core subs k s -> shape s -> pending s = [] ->
  (_currentSendQueueItem s = None -> _sendQueue s = []) ->
  let s' := onTimeout s in
  core subs k s' /\ shape s'
  /\ (pending s' = [] -> _currentSendQueueItem s' = None -> _sendQueue s' = [])
  /\ (timers s < nextId s -> settled s !! timers s = None ->
      exists c, _currentSendQueueItem s = Some c /\ id c = timers s /\ id c = k
        /\ _currentSendQueueItem s' = Some c /\ _sendQueue s' = _sendQueue s
        /\ pending s' = [id c] /\ _socket s' = _socket s /\ written s' = written s
        /\ settled s' !! timers s = Some (Rejected SendTimeout)).
Proof.
  intros C Sh P E. unfold onTimeout.
  destruct (Nat.ltb_spec (timers s) (nextId s)) as [L|L].
  2: { cbn. split; [assumption|]. split; [assumption|]. split; [auto|]. lia. }
  destruct (settled s !! timers s) as [o|] eqn:St.
  - assert (Hs : settle (timers s) (Rejected SendTimeout) (set_timers (S (timers s)) s)
                 = set_timers (S (timers s)) s).
    { unfold settle. destruct s; cbn in *. rewrite St. reflexivity. }
    cbn. rewrite Hs. split; [|split; [|split]].
    + destruct s as [sock el q cur buf n t w st p em un]. cbn in *.
      destruct C as [Cids Ck Cn Cit Cd Cq Cf [Ct1 Ct2] Cs Cw]. cbn in *.
      constructor; cbn; auto. split; [lia|]. intros j Hj.
      destruct (decide (j = t)) as [->|N]; [rewrite St; eauto|apply Ct2; lia].
    + destruct s; exact Sh.
    + destruct s; cbn in *. auto.
    + intros _ [=].
  - assert (Hc : exists c, _currentSendQueueItem s = Some c /\ id c = timers s /\ id c = k
                           /\ settled s !! id c = None).
    { destruct Sh as [[_ U]|(c & _ & P' & _)]; [|congruence].
      destruct s as [sock el q cur buf n t w st p em un]. cbn in *.
      destruct C as [Cids Ck Cn Cit Cd Cq Cf [Ct1 Ct2] Cs Cw]. cbn in *.
      assert (k <= t).
      { destruct (Nat.le_gt_cases k t) as [?|G]; [assumption|].
        destruct (Cd t G) as [? X]. congruence. }
      destruct cur as [c|].
      - exists c. destruct (n - k) as [|m] eqn:Em; cbn in Cids; [discriminate|].
        injection Cids as Hc _. specialize (U c eq_refl).
        assert (t <= k).
        { destruct (Nat.le_gt_cases t k) as [?|G]; [assumption|].
          destruct (Ct2 k G) as [? X]. congruence. }
        repeat split; auto; lia.
      - rewrite (E eq_refl) in Cids. cbn in Cids.
        destruct (n - k) eqn:Em; cbn in Cids; [lia|discriminate]. }
    destruct Hc as (c & Cur & Hid & Hk & U).
    assert (Hs : settle (timers s) (Rejected SendTimeout) (set_timers (S (timers s)) s)
                 = set_timers (S (timers s)) (settle (id c) (Rejected SendTimeout) s)).
    { unfold settle. rewrite Hid. destruct s; cbn in *. rewrite St. reflexivity. }
    destruct (settle_current subs k s c (Rejected SendTimeout) C Cur P U) as (C1 & S1 & G1).
    cbn. rewrite Hs.
    assert (F : settle (id c) (Rejected SendTimeout) s
                = set_settled (<[id c := Rejected SendTimeout]> (settled s)) [id c] s).
    { unfold settle. rewrite U, P. reflexivity. }
    rewrite F in *. clear Hs.
    destruct s as [sock el q cur buf n t w st p em un]. cbn in *. subst.
    split; [|split; [|split]].
    + destruct C1 as [Cids Ck Cn Cit Cd Cq Cf [Ct1 Ct2] Cs Cw]. cbn in *.
      constructor; cbn; auto. split; [lia|]. intros j Hj.
      destruct (decide (j = id c)) as [->|N]; [rewrite G1; eauto|apply Ct2; lia].
    + exact S1.
    + discriminate.
    + intros _ _. exists c. repeat split; auto.
Qed.

Section FramerFacts.

Variable JSON_parse : string -> option json.

Lemma emit_same name v (s s' : State) :
  emit name v s = inl s' \/ emit name v s = inr s' -> sameQueue s s'.
Proof.
  unfold emit. destruct (String.eqb name "error" && negb (errorListener s));
    intros [H|H]; inversion H; subst; destruct s; repeat split.
Qed.

(** Routing one response leaves the queue alone, or settles the awaited
    call and stops there. *)
Lemma routeResponse_cases r (s : State) :
  sameQueue s (fst (routeResponse r s))
  \/ exists x o, _currentSendQueueItem s = Some x
                 /\ routeResponse r s = (settle (id x) o s, false).
Proof.
  unfold routeResponse. destruct (classify r) as [ev m| |].
  - left. destruct (emit "event" (EmitEvent ev m) s) as [s1|s1] eqn:E1.
    + apply emit_same with (name := "event") (v := EmitEvent ev m). auto.
    + assert (A : sameQueue s s1)
        by (apply emit_same with (name := "event") (v := EmitEvent ev m); auto).
      destruct (emit ev (EmitMessage m) s1) as [s2|s2] eqn:E2; cbn [fst];
        apply (sameQueue_trans _ s1); auto;
        apply emit_same with (name := ev) (v := EmitMessage m); auto.
  - destruct (_currentSendQueueItem s) as [x|] eqn:Cur.
    + right. exists x. destruct r; eauto.
    + left. apply sameQueue_refl.
  - left. destruct s; repeat split.
Qed.

Lemma parseRxBuffer_cases fuel : forall (s : State),
  sameQueue s (parseRxBuffer JSON_parse fuel s)
  \/ exists s0 x o, sameQueue s s0 /\ _currentSendQueueItem s0 = Some x
                    /\ parseRxBuffer JSON_parse fuel s = settle (id x) o s0.
Proof.
  induction fuel as [|fuel IH]; intros s; [left; apply sameQueue_refl|].
  cbn [parseRxBuffer].
  destruct (cutAt DELIMITER (_rxBuffer s)) as [[rxBufferItem rest]|];
    [|left; apply sameQueue_refl].
  set (s1 := set_rxBuffer rest s).
  assert (A : sameQueue s s1) by (destruct s; repeat split).
  destruct (JSON_parse rxBufferItem) as [doc|].
  2: { left. apply (sameQueue_trans _ s1); [assumption|]. destruct s1; repeat split. }
  destruct (_responseParser doc) as [x|r].
  { left. apply (sameQueue_trans _ s1); [assumption|]. destruct s1; repeat split. }
  destruct (routeResponse_cases r s1) as [B|(x & o & Cur & B)].
  - destruct (routeResponse r s1) as [s2 again]. cbn [fst] in B.
    destruct again.
    + destruct (IH s2) as [D|(s0 & x & o & D1 & D2 & D3)].
      * left. eauto using sameQueue_trans.
      * right. exists s0, x, o. eauto using sameQueue_trans.
    + left. eauto using sameQueue_trans.
  - rewrite B. right. exists s1, x, o. auto.
Qed.

Lemma onData_ok subs k chunk (s : State) :
  core subs k s -> shape s -> pending s = [] ->
  (_currentSendQueueItem s = None -> _sendQueue s = []) ->
  let s' := onData JSON_parse chunk s in
  core subs k s' /\ shape s'
  /\ (pending s' = [] -> _currentSendQueueItem s' = None -> _sendQueue s' = []).
Proof.
  intros C Sh P E. unfold onData, _parseRxBuffer.
  set (s1 := set_rxBuffer (_rxBuffer s ++ chunk) s).
  assert (A : sameQueue s s1) by (destruct s; repeat split).
  destruct (parseRxBuffer_cases (String.length (_rxBuffer s1)) s1)
    as [B|(s0 & x & o & B1 & B2 & B3)].
  - pose proof (sameQueue_trans _ _ _ A B) as T. cbv zeta.
    split; [eapply core_same; eauto|]. split; [eapply shape_same; eauto|].
    destruct T as (_ & T2 & T3 & _ & _ & _ & _ & T8). rewrite T2, T3. auto.
  - pose proof (sameQueue_trans _ _ _ A B1) as T. cbv zeta. rewrite B3.
    assert (C0 : core subs k s0) by (eapply core_same; eauto).
    assert (S0 : shape s0) by (eapply shape_same; eauto).
    assert (P0 : pending s0 = []).
    { destruct T as (_ & _ & _ & _ & _ & _ & _ & T8). congruence. }
    assert (U : settled s0 !! id x = None).
    { destruct S0 as [[_ U]|(c & _ & P' & _)]; [auto|congruence]. }
    destruct (settle_current subs k s0 x o C0 B2 P0 U) as (C1 & S1 & _).
    split; [assumption|]. split; [assumption|].
    unfold settle. rewrite U. destruct s0; cbn in *. destruct pending0; discriminate.
Qed.

(** Every turn of the event loop keeps the invariant. *)
Lemma turn_ok subs t (s : State) :
  invariant subs s ->
  invariant (subs ++ submissions [t]) (turn JSON_parse t s).
Proof.
  intros (k & C & Sh & P & E). unfold turn, submissions. cbn [map concat].
  rewrite app_nil_r. destruct t as [cmds|chunk| |b].
  - destruct (submit_ok cmds subs k s C Sh (fun _ => E)) as (C1 & S1 & E1).
    apply (runMicrotasks_ok _ k _ C1 S1 E1).
  - rewrite app_nil_r.
    destruct (onData_ok subs k chunk s C Sh P E) as (C1 & S1 & E1).
    apply (runMicrotasks_ok _ k _ C1 S1 E1).
  - rewrite app_nil_r.
    destruct (onTimeout_ok subs k s C Sh P E) as (C1 & S1 & E1 & _).
    apply (runMicrotasks_ok _ k _ C1 S1 E1).
  - rewrite app_nil_r.
    assert (C1 : core subs k (set_socket b s)).
    { destruct s. destruct C. constructor; assumption. }
    assert (S1 : shape (set_socket b s)) by (destruct s; exact Sh).
    apply (runMicrotasks_ok _ k _ C1 S1). destruct s; cbn in *. auto.
Qed.

Lemma submissions_app (a b : list task) :
  submissions (a ++ b) = (submissions a ++ submissions b)%list.
Proof. unfold submissions. rewrite map_app, concat_app. reflexivity. Qed.

Lemma run_ok ts : forall subs (s : State),
  invariant subs s -> invariant (subs ++ submissions ts) (run JSON_parse ts s).
Proof.
  induction ts as [|t ts IH]; intros subs s I0.
  - cbn. rewrite app_nil_r. assumption.
  - change (t :: ts) with ([t] ++ ts)%list. rewrite submissions_app, app_assoc.
    apply (IH _ _ (turn_ok subs t s I0)).
Qed.

Lemma invariant_initial : invariant [] initial.
Proof.
  assert (N : forall (A : Type) (x : A), x ∈ @nil A -> False).
  { intros A x Hx. apply list_elem_of_In in Hx. destruct Hx. }
  exists 0. split; [|split; [|split]]; auto.
  - constructor; cbn; auto; try (intros; lia); try (intros; exfalso; eauto; fail).
    + split; [lia|]. intros; lia.
    + constructor.
  - left. split; [reflexivity|]. discriminate.
Qed.

End FramerFacts.

Lemma drain_idle fuel (s : State) : pending s = [] -> drain fuel s = s.
Proof. intros P. destruct fuel; cbn [drain]; [reflexivity|]. rewrite P. reflexivity. Qed.

(** The microtasks after the awaited call has settled: its handler runs,
    the head of the queue becomes the awaited call and is written to the
    socket; with an empty queue nothing is awaited any more. *)
Lemma runMicrotasks_settled subs k (s : State) (c : item) :
  core subs k s -> _currentSendQueueItem s = Some c ->
  pending s = [id c] -> is_Some (settled s !! id c) -> _socket s = true ->
  let s' := runMicrotasks s in
  invariant subs s' /\ settled s' = settled s /\ _rxBuffer s' = _rxBuffer s
  /\ _socket s' = true /\ nextId s' = nextId s /\ timers s' = timers s
  /\ match _sendQueue s with
     | [] => _currentSendQueueItem s' = None /\ _sendQueue s' = []
             /\ written s' = written s
     | x :: q => _currentSendQueueItem s' = Some x /\ _sendQueue s' = q
                 /\ written s' = (written s ++ [(id x, requestLine (icommand x) (qs x))])%list
     end.
Proof.
  intros C Cur P St Sock. unfold runMicrotasks. rewrite P.
  replace (2 * length (_sendQueue s) + length [id c])
    with (S (2 * length (_sendQueue s))) by (cbn; lia).
  cbn [drain]. rewrite P.
  pose proof (clear_core subs k s c C Cur St) as C0.
  unfold afterRace.
  set (s0 := set_current None (set_settled (settled s) [] s)) in *.
  destruct (next_free subs (S k) s0 C0 eq_refl eq_refl) as (C1 & S1 & E1 & D).
  change (_sendQueue s0) with (_sendQueue s) in D.
  change (_socket s0) with (_socket s) in D. rewrite Sock in D.
  assert (F : sameQueue s0 s0 /\ _rxBuffer s0 = _rxBuffer s /\ nextId s0 = nextId s
              /\ timers s0 = timers s /\ settled s0 = settled s
              /\ written s0 = written s /\ _socket s0 = true).
  { destruct s; cbn in *. repeat split; auto. }
  destruct F as (_ & F1 & F2 & F3 & F4 & F5 & F6).
  assert (P1 : pending (_nextSendQueueItem s0) = []).
  { destruct (_sendQueue s) as [|x q]; [rewrite D; reflexivity|].
    destruct D as (_ & _ & _ & D & _). exact D. }
  rewrite drain_idle by exact P1.
  split; [exists (S k); auto|].
  assert (G : settled (_nextSendQueueItem s0) = settled s
              /\ _rxBuffer (_nextSendQueueItem s0) = _rxBuffer s
              /\ _socket (_nextSendQueueItem s0) = true
              /\ nextId (_nextSendQueueItem s0) = nextId s
              /\ timers (_nextSendQueueItem s0) = timers s).
  { unfold _nextSendQueueItem. cbn [nextSendQueueItem].
    change (_currentSendQueueItem s0) with (@None item).
    change (_sendQueue s0) with (_sendQueue s).
    destruct (_sendQueue s) as [|x q]; [auto 10|].
    unfold _write. change (_socket (set_current (Some x) (set_sendQueue q s0)))
      with (_socket s0). rewrite F6. destruct s; cbn in *. auto 10. }
  destruct G as (G1 & G2 & G3 & G4 & G5).
  split; [assumption|]. split; [assumption|]. split; [assumption|].
  split; [assumption|]. split; [assumption|].
  destruct (_sendQueue s) as [|x q] eqn:Q.
  - rewrite D. change (_sendQueue s0) with (_sendQueue s). rewrite Q, F5. auto.
  - destruct D as (D1 & D2 & D3 & _). rewrite D1, D2, D3, F5. auto.
Qed.

(** A settled call stays settled, with the same outcome. *)
Lemma settle_mono i o (s : State) j r :
  settled s !! j = Some r -> settled (settle i o s) !! j = Some r.
Proof.
  intros H. unfold settle. destruct (settled s !! i) eqn:E; [assumption|].
  destruct s; cbn in *. rewrite lookup_insert_ne; [assumption|]. congruence.
Qed.

Lemma next_mono fuel : forall (s : State) j r,
  settled s !! j = Some r -> settled (nextSendQueueItem fuel s) !! j = Some r.
Proof.
  induction fuel as [|fuel IH]; intros s j r H; [assumption|].
  cbn [nextSendQueueItem]. destruct (_currentSendQueueItem s); [assumption|].
  destruct (_sendQueue s) as [|x q]; [assumption|].
  unfold _write.
  destruct (_socket (set_current (Some x) (set_sendQueue q s))).
  - destruct s; assumption.
  - apply IH, settle_mono. destruct s; assumption.
Qed.

Lemma drain_mono fuel : forall (s : State) j r,
  settled s !! j = Some r -> settled (drain fuel s) !! j = Some r.
Proof.
  induction fuel as [|fuel IH]; intros s j r H; [assumption|].
  cbn [drain]. destruct (pending s) as [|h p]; [assumption|].
  apply IH. unfold afterRace, _nextSendQueueItem. apply next_mono.
  destruct s; assumption.
Qed.

(** The turn of a timer, from a state in which the invariant holds. *)
Lemma timeout_turn
  (JSON_parse : string -> option json) subs (s : State) :
  invariant subs s -> timers s < nextId s -> settled s !! timers s = None ->
  let s' := turn JSON_parse Timeout s in
  settled s' !! timers s = Some (Rejected SendTimeout)
  /\ invariant subs s'
  /\ (_socket s = true ->
      match _sendQueue s with
      | x :: q =>
          _currentSendQueueItem s' = Some x /\ _sendQueue s' = q
          /\ written s' = (written s ++ [(id x, requestLine (icommand x) (qs x))])%list
      | [] =>
          _currentSendQueueItem s' = None
          /\ forall cmd q,
               written (turn JSON_parse (Submit [(cmd, q)]) s')
               = (written s' ++ [(nextId s', requestLine cmd q)])%list
      end).
Proof.
  intros (k & C & Sh & P & E) L U. unfold turn at 1.
  destruct (onTimeout_ok subs k s C Sh P E) as (C1 & S1 & E1 & T).
  destruct (T L U) as (c & Cur & Hid & Hk & Cur' & Q' & P' & Sock' & W' & St').
  set (s1 := onTimeout s) in *.
  assert (St1 : is_Some (settled s1 !! id c)) by (rewrite Hid, St'; eauto).
  destruct (_socket s) eqn:Sock.
  - destruct (runMicrotasks_settled subs k s1 c C1 Cur' P' St1 Sock')
      as (I' & G1 & G2 & G3 & G4 & G5 & D).
    cbv zeta. rewrite G1. split; [assumption|]. split; [assumption|]. intros _.
    rewrite Q', W' in D. destruct (_sendQueue s) as [|x q]; [|exact D].
    destruct D as (D1 & D2 & D3). split; [assumption|]. intros cmd q.
    set (s' := runMicrotasks s1) in *.
    destruct I' as (k' & C' & Sh' & Pn' & E').
    pose proof (push_core subs k' s' cmd q C') as C2.
    unfold turn, submit. cbn [foldl fst snd]. unfold send. cbn [snd].
    set (s2 := set_sendQueue _ _) in *.
    assert (F : _currentSendQueueItem s2 = None /\ pending s2 = []
                /\ _sendQueue s2 = [Item (nextId s') cmd q]
                /\ _socket s2 = true /\ written s2 = written s').
    { subst s2. rewrite D2. destruct s'; cbn in *. auto. }
    destruct F as (F1 & F2 & F3 & F4 & F5).
    destruct (next_free _ k' s2 C2 F1 F2) as (_ & _ & _ & D).
    rewrite F3, F4 in D. destruct D as (_ & _ & D & Pn & _).
    unfold runMicrotasks. rewrite drain_idle by exact Pn.
    rewrite D, F5. reflexivity.
  - destruct (runMicrotasks_ok subs k s1 C1 S1 E1) as (I' & _).
    cbv zeta. split; [|split; [assumption|discriminate]].
    apply drain_mono. exact St'.
Qed.

(** * First in, first out *)

Lemma cutAt_unit (u : string) :
  cutAt DELIMITER u = None -> cutAt DELIMITER (u ++ DELIMITER) = Some (u, "").
Proof.
  induction u as [|c t IH]; intros H; [reflexivity|].
  rewrite append_cons. cbn [cutAt] in *.
  destruct (dropPrefix DELIMITER (String c t)) eqn:D; [discriminate|].
  destruct (cutAt DELIMITER t) as [[a b]|] eqn:Ct; [discriminate|].
  rewrite (IH eq_refl).
  assert (D' : dropPrefix DELIMITER (String c (t ++ DELIMITER)) = None).
  { unfold DELIMITER in *. cbn [dropPrefix] in *.
    destruct (Ascii.eqb "013" c); [|reflexivity].
    destruct t as [|b t']; [reflexivity|]. rewrite append_cons.
    destruct (Ascii.eqb "010" b); [discriminate|reflexivity]. }
  rewrite D'. reflexivity.
Qed.

Lemma length_unit (u : string) : exists n, String.length (u ++ DELIMITER) = S n.
Proof. destruct u; cbn; eauto. Qed.

Lemma submit_awaiting cs : forall (s : State) x,
  _currentSendQueueItem s = Some x ->
  let s' := submit cs s in
  _currentSendQueueItem s' = Some x
  /\ _sendQueue s' = (_sendQueue s ++ itemsFrom (nextId s) cs)%list
  /\ written s' = written s /\ pending s' = pending s /\ settled s' = settled s
  /\ _socket s' = _socket s /\ _rxBuffer s' = _rxBuffer s.
Proof.
  induction cs as [|c cs IH]; intros s x Cur.
  - cbn. rewrite app_nil_r. auto 10.
  - unfold submit. cbn [foldl]. fold (submit cs (snd (send (fst c) (snd c) s))).
    unfold send. cbn [snd]. unfold _nextSendQueueItem.
    rewrite next_awaiting by (destruct s; cbn in *; eauto).
    set (s2 := set_sendQueue _ _).
    assert (Cur2 : _currentSendQueueItem s2 = Some x) by (destruct s; exact Cur).
    destruct (IH s2 x Cur2) as (A1 & A2 & A3 & A4 & A5 & A6 & A7).
    cbv zeta. rewrite A1, A2, A3, A4, A5, A6, A7.
    destruct s; cbn. rewrite <- app_assoc. auto 10.
Qed.

Section Fifo.

Variable JSON_parse : string -> option json.

Lemma submit_mono cs : forall (s : State) j r,
  settled s !! j = Some r -> settled (submit cs s) !! j = Some r.
Proof.
  induction cs as [|c cs IH]; intros s j r H; [assumption|].
  unfold submit. cbn [foldl]. apply IH. unfold send. cbn [snd].
  apply next_mono. destruct s; assumption.
Qed.

Lemma turn_mono t (s : State) j r :
  settled s !! j = Some r -> settled (turn JSON_parse t s) !! j = Some r.
Proof.
  intros H. unfold turn, runMicrotasks. apply drain_mono.
  destruct t as [cmds|chunk| |b].
  - apply submit_mono, H.
  - unfold onData, _parseRxBuffer.
    set (s1 := set_rxBuffer _ s).
    assert (H1 : settled s1 !! j = Some r) by (destruct s; exact H).
    destruct (parseRxBuffer_cases JSON_parse (String.length (_rxBuffer s1)) s1)
      as [(_ & _ & _ & _ & _ & _ & E & _)|(s0 & x & o & B1 & _ & ->)].
    + rewrite E. exact H1.
    + apply settle_mono. destruct B1 as (_ & _ & _ & _ & _ & _ & E & _).
      rewrite E. exact H1.
  - unfold onTimeout. destruct (timers s <? nextId s)%nat; [|assumption].
    apply settle_mono. destruct s; assumption.
  - destruct s; assumption.
Qed.

Lemma run_mono ts : forall (s : State) j r,
  settled s !! j = Some r -> settled (run JSON_parse ts s) !! j = Some r.
Proof.
  induction ts as [|t ts IH]; intros s j r H; [assumption|].
  cbn [run foldl]. apply IH, turn_mono, H.
Qed.

(** The reply to the awaited call arrives in a chunk of its own. *)
Lemma onData_reply ue (s : State) x :
  isReply JSON_parse ue -> _rxBuffer s = "" ->
  _currentSendQueueItem s = Some x ->
  onData JSON_parse (fst ue ++ DELIMITER) s
  = settle (id x) (Resolved (snd ue)) s.
Proof.
  intros (Hcut & (doc & Hdoc & Hresp) & Hcls) Buf Cur.
  unfold onData, _parseRxBuffer.
  assert (E1 : _rxBuffer (set_rxBuffer (_rxBuffer s ++ (fst ue ++ DELIMITER)) s)
               = fst ue ++ DELIMITER).
  { rewrite Buf. destruct s; reflexivity. }
  rewrite E1. destruct (length_unit (fst ue)) as [n ->].
  cbn [parseRxBuffer]. rewrite E1, (cutAt_unit _ Hcut), Hdoc, Hresp.
  unfold routeResponse. rewrite Hcls.
  assert (E2 : set_rxBuffer "" (set_rxBuffer (_rxBuffer s ++ (fst ue ++ DELIMITER)) s) = s).
  { destruct s; cbn in *. subst. reflexivity. }
  rewrite E2, Cur. reflexivity.
Qed.

(** One reply: the awaited call resolves with it, and the next entry of
    the queue is written. *)
Lemma reply_turn subs k ue (s : State) x :
  core subs k s -> isReply JSON_parse ue -> _rxBuffer s = "" ->
  _currentSendQueueItem s = Some x -> pending s = [] ->
  settled s !! id x = None -> _socket s = true ->
  let s' := turn JSON_parse (replyChunk ue) s in
  invariant subs s' /\ settled s' !! id x = Some (Resolved (snd ue))
  /\ _rxBuffer s' = "" /\ _socket s' = true
  /\ match _sendQueue s with
     | [] => _currentSendQueueItem s' = None /\ _sendQueue s' = []
             /\ written s' = written s
     | y :: q => _currentSendQueueItem s' = Some y /\ _sendQueue s' = q
                 /\ written s' = (written s ++ [wline y])%list
     end.
Proof.
  intros C R Buf Cur P U Sock. unfold turn, replyChunk.
  rewrite (onData_reply ue s x R Buf Cur).
  destruct (settle_current subs k s x (Resolved (snd ue)) C Cur P U) as (C1 & _ & G).
  set (s1 := settle (id x) (Resolved (snd ue)) s) in *.
  assert (F : _currentSendQueueItem s1 = Some x /\ pending s1 = [id x]
              /\ _socket s1 = true /\ _sendQueue s1 = _sendQueue s
              /\ written s1 = written s /\ _rxBuffer s1 = "").
  { subst s1. unfold settle. rewrite U. destruct s; cbn in *. subst. auto 10. }
  destruct F as (F1 & F2 & F3 & F4 & F5 & F6).
  destruct (runMicrotasks_settled subs k s1 x C1 F1 F2) as (I' & G1 & G2 & G3 & _ & _ & D);
    [rewrite G; eauto|assumption|].
  cbv zeta. rewrite G1, G2, G3, G, F6. rewrite F4, F5 in D.
  split; [assumption|]. split; [reflexivity|]. split; [reflexivity|].
  split; [reflexivity|]. exact D.
Qed.

(** The replies arrive one after the other: each resolves the call that is
    awaited when it arrives, and lets the next entry be written. *)
Lemma serve ues : forall subs (s : State) x q,
  invariant subs s -> _currentSendQueueItem s = Some x -> _sendQueue s = q ->
  _socket s = true -> _rxBuffer s = "" ->
  length ues = S (length q) -> Forall (isReply JSON_parse) ues ->
  let s' := run JSON_parse (map replyChunk ues) s in
  written s' = (written s ++ map wline q)%list
  /\ (forall n y ue, (x :: q) !! n = Some y -> ues !! n = Some ue ->
        settled s' !! id y = Some (Resolved (snd ue)))
  /\ _currentSendQueueItem s' = None /\ _sendQueue s' = [].
Proof.
  induction ues as [|ue ues IH]; intros subs s x q I0 Cur Q Sock Buf L F;
    [discriminate|].
  destruct I0 as (k & C & Sh & P & E).
  assert (U : settled s !! id x = None).
  { destruct Sh as [[_ U]|(c & _ & P' & _)]; [auto|congruence]. }
  inversion F as [|? ? R F']; subst.
  destruct (reply_turn subs k ue s x C R Buf Cur P U Sock) as (I1 & G & B1 & S1 & D).
  cbv zeta.
  change (run JSON_parse (map replyChunk (ue :: ues)) s)
    with (run JSON_parse (map replyChunk ues) (turn JSON_parse (replyChunk ue) s)).
  set (s1 := turn JSON_parse (replyChunk ue) s) in *.
  destruct (_sendQueue s) as [|y q'] eqn:Q.
  - destruct D as (D1 & D2 & D3). destruct ues; [|discriminate].
    cbn. rewrite app_nil_r. split; [assumption|]. split; [|auto].
    intros n z ue' Hn Hu. destruct n; [|destruct n; discriminate].
    cbn in Hn, Hu. injection Hn as <-. injection Hu as <-. exact G.
  - destruct D as (D1 & D2 & D3).
    destruct (IH subs s1 y q' I1 D1 D2 S1 B1) as (W & A & Cn & Qn);
      [cbn in L; lia|assumption|].
    split; [|split; [|auto]].
    + rewrite W, D3, <- app_assoc. reflexivity.
    + intros n z ue' Hn Hu. destruct n as [|n].
      * cbn in Hn, Hu. injection Hn as <-. injection Hu as <-.
        apply run_mono, G.
      * apply (A n z ue' Hn Hu).
Qed.

(** Commands submitted in one go on an idle connection: the first is
    written, the others wait in the queue. *)
Lemma submit_idle subs c cs (s : State) :
  invariant subs s -> _currentSendQueueItem s = None -> _socket s = true ->
  let s' := turn JSON_parse (Submit (c :: cs)) s in
  invariant (subs ++ c :: cs) s'
  /\ _currentSendQueueItem s' = Some (Item (nextId s) (fst c) (snd c))
  /\ _sendQueue s' = itemsFrom (S (nextId s)) cs
  /\ written s' = (written s ++ [wline (Item (nextId s) (fst c) (snd c))])%list
  /\ _socket s' = true /\ _rxBuffer s' = _rxBuffer s.
Proof.
  intros I0 Cur Sock.
  pose proof (turn_ok JSON_parse subs (Submit (c :: cs)) s I0) as I1.
  unfold submissions in I1. cbn [map concat] in I1. rewrite app_nil_r in I1.
  destruct I0 as (k & C & Sh & P & E). specialize (E Cur).
  unfold turn in *. unfold submit in *. cbn [foldl] in *.
  fold (submit cs (snd (send (fst c) (snd c) s))) in *.
  pose proof (push_core subs k s (fst c) (snd c) C) as C2.
  unfold send in *. cbn [snd] in *.
  set (s2 := set_sendQueue _ _) in *.
  assert (F : _currentSendQueueItem s2 = None /\ pending s2 = []
              /\ _sendQueue s2 = [Item (nextId s) (fst c) (snd c)]
              /\ _socket s2 = true /\ written s2 = written s
              /\ _rxBuffer s2 = _rxBuffer s /\ nextId s2 = S (nextId s)).
  { subst s2. destruct s; cbn in *. subst. auto 10. }
  destruct F as (F1 & F2 & F3 & F4 & F5 & F6 & F7).
  destruct (next_free _ k s2 C2 F1 F2) as (_ & _ & _ & D).
  rewrite F3, F4 in D. destruct D as (D1 & D2 & D3 & D4 & _).
  set (s3 := _nextSendQueueItem s2) in *.
  assert (N3 : nextId s3 = S (nextId s) /\ _socket s3 = true
               /\ _rxBuffer s3 = _rxBuffer s).
  { subst s3. unfold _nextSendQueueItem. cbn [nextSendQueueItem].
    rewrite F1, F3. unfold _write.
    change (_socket (set_current _ (set_sendQueue [] s2))) with (_socket s2).
    rewrite F4. rewrite <- F7, <- F6. destruct s2; cbn. auto. }
  destruct N3 as (N3 & K3 & B3).
  destruct (submit_awaiting cs s3 _ D1) as (A1 & A2 & A3 & A4 & A5 & A6 & A7).
  set (s4 := submit cs s3) in *.
  assert (P4 : pending s4 = []) by congruence.
  unfold runMicrotasks in *. rewrite drain_idle in * by exact P4.
  split; [assumption|]. rewrite A1, A2, A3, A6, A7, D2, D3, N3, F5, K3, B3.
  auto 10.
Qed.

Lemma itemsFrom_lookup cmds : forall n m,
  m < length cmds ->
  exists y, itemsFrom n cmds !! m = Some y /\ id y = n + m.
Proof.
  induction cmds as [|c cmds IH]; intros n m L; [cbn in L; lia|].
  destruct m as [|m]; cbn.
  - eexists. split; [reflexivity|]. cbn. lia.
  - destruct (IH (S n) m) as (y & A & B); [cbn in L; lia|].
    exists y. split; [assumption|]. lia.
Qed.

Lemma itemsFrom_length cmds : forall n, length (itemsFrom n cmds) = length cmds.
Proof. induction cmds as [|c cmds IH]; intros n; cbn; [reflexivity|]. rewrite IH. reflexivity. Qed.

(** What the invariant says of the requests on the socket. *)
Lemma invariant_written subs (s : State) :
  invariant subs s ->
  StronglySorted lt (map fst (written s))
  /\ forall i d, (i, d) ∈ written s ->
       (exists c q, subs !! i = Some (c, q) /\ d = requestLine c q)
       /\ (forall j, j < i -> is_Some (settled s !! j))
       /\ (settled s !! i = None ->
           exists x, _currentSendQueueItem s = Some x /\ id x = i).
Proof.
  intros (k & C & Sh & P & E).
  destruct C as [Cids Ck Cn Cit Cd Cq Cf Ct Cs Cw].
  split; [assumption|]. intros i d Hi. destruct (Cw i d Hi) as [A B].
  split; [assumption|]. split.
  - intros j Hj. apply Cd. destruct (_currentSendQueueItem s); lia.
  - intros U. unfold held in Cids. destruct (_currentSendQueueItem s) as [x|].
    + exists x. split; [reflexivity|].
      destruct (nextId s - k); cbn in Cids; [discriminate|].
      injection Cids as Hx _.
      destruct (Nat.lt_ge_cases i k) as [L|G]; [|lia].
      destruct (Cd i L) as [? X]. congruence.
    + assert (L : i < k) by lia. destruct (Cd i L) as [? X]. congruence.
Qed.

End Fifo.

(** C1: at most one command is outstanding at a time. After any turns of the
    event loop, the requests on the socket are in the order in which their
    commands were submitted, each is the request of its command, every
    command submitted before a written one has settled, and the only
    written command that has not settled is the awaited one. When commands
    are submitted together on an idle connection and the device answers
    each request with one reply, the socket is given one request per
    command, in the order of submission, and every call resolves with the
    reply at its position. *)
Theorem one_outstanding_fifo (JSON_parse : string -> option json)
  (ts : list task) :
  let s := run JSON_parse ts initial in
  (StronglySorted lt (map fst (written s))
   /\ forall i d, (i, d) ∈ written s ->
        (exists c q, submissions ts !! i = Some (c, q) /\ d = requestLine c q)
        /\ (forall j, j < i -> is_Some (settled s !! j))
        /\ (settled s !! i = None ->
            exists x, _currentSendQueueItem s = Some x /\ id x = i))
  /\ forall cmds ues,
       _currentSendQueueItem s = None -> _socket s = true -> _rxBuffer s = "" ->
       length ues = length cmds -> Forall (isReply JSON_parse) ues ->
       let s' := run JSON_parse (Submit cmds :: map replyChunk ues) s in
       written s' = (written s ++ map wline (itemsFrom (nextId s) cmds))%list
       /\ forall n ue, n < length cmds -> ues !! n = Some ue ->
            settled s' !! (nextId s + n) = Some (Resolved (snd ue)).
Proof.
  intros s.
  pose proof (run_ok JSON_parse ts [] initial (invariant_initial)) as I0.
  rewrite app_nil_l in I0. fold s in I0.
  split; [apply invariant_written, I0|].
  intros cmds ues Cur Sock Buf L F. destruct cmds as [|c cs].
  - destruct ues; [|discriminate]. cbn [map run foldl itemsFrom].
    unfold turn, submit. cbn [foldl]. unfold runMicrotasks.
    destruct I0 as (k & _ & _ & P & _). rewrite drain_idle by exact P.
    cbv zeta. rewrite app_nil_r. split; [reflexivity|]. intros n ue Hn. cbn in Hn. lia.
  - destruct (submit_idle JSON_parse _ c cs s I0 Cur Sock) as (I1 & C1 & Q1 & W1 & S1 & B1).
    cbv zeta.
    change (run JSON_parse (Submit (c :: cs) :: map replyChunk ues) s)
      with (run JSON_parse (map replyChunk ues) (turn JSON_parse (Submit (c :: cs)) s)).
    set (s1 := turn JSON_parse (Submit (c :: cs)) s) in *.
    destruct (serve JSON_parse ues _ s1 _ _ I1 C1 Q1 S1) as (W & A & _).
    { congruence. }
    { rewrite itemsFrom_length. cbn in L. exact L. }
    { assumption. }
    split.
    + rewrite W, W1, <- app_assoc. reflexivity.
    + intros n ue Hn Hu.
      destruct (itemsFrom_lookup (c :: cs) (nextId s) n Hn) as (y & Y1 & Y2).
      rewrite <- Y2. apply (A n y ue); [exact Y1|exact Hu].
Qed.

Lemma nextId_next fuel : forall (s : State), nextId (nextSendQueueItem fuel s) = nextId s.
Proof.
  induction fuel as [|fuel IH]; intros s; [reflexivity|].
  cbn [nextSendQueueItem]. destruct (_currentSendQueueItem s); [reflexivity|].
  destruct (_sendQueue s) as [|x q]; [reflexivity|].
  unfold _write. destruct (_socket (set_current (Some x) (set_sendQueue q s))).
  - destruct s; reflexivity.
  - rewrite IH. unfold settle.
    destruct (settled (set_current (Some x) (set_sendQueue q s)) !! id x);
      destruct s; reflexivity.
Qed.

(** C10: [playerGetPlayers] makes one call of [send] for
    [player/get_players] and hands its caller the promise for the payload
    of that call; the second call of [send] in its text is never made,
    because what it tests is a promise, which is an object. *)
Theorem playerGetPlayers_sends_once (s : State) :
  playerGetPlayers s
  = (VPayloadOf (nextId s), snd (send "player/get_players" [] s))
  /\ nextId (snd (playerGetPlayers s)) = S (nextId s)
  /\ forall s' e,
       settled s' !! nextId s = Some (Resolved e) ->
       payloadOutcome s' (fst (playerGetPlayers s)) = Some (inl (payload e)).
Proof.
  assert (E : playerGetPlayers s
              = (VPayloadOf (nextId s), snd (send "player/get_players" [] s))).
  { unfold playerGetPlayers.
    destruct (send "player/get_players" [] s) as [i s1] eqn:S.
    assert (i = nextId s) by (unfold send in S; injection S; auto).
    subst i. reflexivity. }
  rewrite E. cbn [fst snd]. split; [reflexivity|]. split.
  - unfold send. cbn [snd]. unfold _nextSendQueueItem. rewrite nextId_next.
    destruct s; reflexivity.
  - intros s' e H. cbn [payloadOutcome]. rewrite H. reflexivity.
Qed.

Lemma playerGetPlayers_sends_once_witness :
  let s' := turn Json.parse (Data (playersReply ++ DELIMITER))
              (snd (playerGetPlayers idleState)) in
  settled s' !! nextId idleState = Some (Resolved playersEnvelope)
  /\ payloadOutcome s' (fst (playerGetPlayers idleState))
     = Some (inl (payload playersEnvelope)).
Proof.
  intros s'.
  assert (H : settled s' !! nextId idleState = Some (Resolved playersEnvelope))
    by (vm_compute; reflexivity).
  split; [exact H|].
  exact (proj2 (proj2 (playerGetPlayers_sends_once idleState)) s' playersEnvelope H).
Defined.

(** C3, where the code departs from it: a chunk brings the reply to the
    awaited command and then an event. Given in one chunk, the reply is
    routed and the parser stops: the event stays in the buffer, a complete
    unit that no subscriber has been given. Given in two chunks, the same
    bytes route the reply and then the event. *)
Theorem chunking_changes_routing :
  let one := run Json.parse
               [Data ((volumeReply ++ DELIMITER) ++ (volumeEvent ++ DELIMITER))]
               awaitingState in
  let two := run Json.parse
               [Data (volumeReply ++ DELIMITER); Data (volumeEvent ++ DELIMITER)]
               awaitingState in
  settled one !! 0 = Some (Resolved volumeEnvelope)
  /\ settled two !! 0 = Some (Resolved volumeEnvelope)
  /\ emits one = []
  /\ _rxBuffer one = volumeEvent ++ DELIMITER
  /\ emits two = [("event", EmitEvent "player_volume_changed" (message volumeChanged));
                  ("player_volume_changed", EmitMessage (message volumeChanged))]
  /\ _rxBuffer two = "".
Proof. vm_compute. repeat split; reflexivity. Qed.

(** Every state the event loop reaches from a fresh object satisfies the
    invariant. *)
Lemma invariant_reachable (JSON_parse : string -> option json) (ts : list task) :
  invariant (submissions ts) (run JSON_parse ts initial).
Proof.
  pose proof (run_ok JSON_parse ts [] initial invariant_initial) as I0.
  rewrite app_nil_l in I0. exact I0.
Qed.

(** C2: when the timer of a call fires and no reply has settled the call,
    the call is rejected with [Send Timeout]; its handler then lets the
    queue advance: with a socket, the head of the queue is written, and
    when the queue is empty the next command submitted is written at once.
    This holds in every state the event loop reaches. *)
Theorem timeout_rejects_and_advances
  (JSON_parse : string -> option json) (ts : list task) :
  let s := run JSON_parse ts initial in
  timers s < nextId s -> settled s !! timers s = None ->
  let s' := turn JSON_parse Timeout s in
  settled s' !! timers s = Some (Rejected SendTimeout)
  /\ pending s' = []
  /\ (_socket s = true ->
      match _sendQueue s with
      | x :: q =>
          _currentSendQueueItem s' = Some x /\ _sendQueue s' = q
          /\ written s' = (written s ++ [(id x, requestLine (icommand x) (qs x))])%list
      | [] =>
          _currentSendQueueItem s' = None
          /\ forall cmd q,
               written (turn JSON_parse (Submit [(cmd, q)]) s')
               = (written s' ++ [(nextId s', requestLine cmd q)])%list
      end).
Proof.
  intros s L U.
  destruct (timeout_turn JSON_parse (submissions ts) s
              (invariant_reachable JSON_parse ts) L U) as (A & (k & _ & _ & P & _) & B).
  cbv zeta. split; [exact A|]. split; [exact P|exact B].
Qed.

Lemma isReply_two : Forall (isReply Json.parse) twoReplies.
Proof.
  assert (R : forall ue, cutAt DELIMITER (fst ue) = None ->
                (exists doc, Json.parse (fst ue) = Some doc
                             /\ _responseParser doc = inr (Decoded (snd ue))) ->
                classify (Decoded (snd ue)) = RouteReply -> isReply Json.parse ue).
  { intros ue A B C. split; [exact A|]. split; [exact B|exact C]. }
  unfold twoReplies. constructor; [|constructor; [|constructor]].
  - apply R; [vm_compute; reflexivity| |vm_compute; reflexivity].
    exists (default JNull (Json.parse volumeReply)). split; vm_compute; reflexivity.
  - apply R; [vm_compute; reflexivity| |vm_compute; reflexivity].
    exists (default JNull (Json.parse muteReply)). split; vm_compute; reflexivity.
Qed.

Lemma one_outstanding_fifo_witness :
  let s := run Json.parse [Socket true] initial in
  let s' := run Json.parse (Submit twoCommands :: map replyChunk twoReplies) s in
  (_currentSendQueueItem s = None /\ _socket s = true /\ _rxBuffer s = ""
   /\ length twoReplies = length twoCommands)
  /\ written s' = (written s ++ map wline (itemsFrom (nextId s) twoCommands))%list
  /\ settled s' !! (nextId s + 1) = Some (Resolved muteEnvelope).
Proof.
  intros s s'.
  assert (H : _currentSendQueueItem s = None /\ _socket s = true /\ _rxBuffer s = ""
              /\ length twoReplies = length twoCommands)
    by (vm_compute; auto).
  split; [exact H|]. destruct H as (H1 & H2 & H3 & H4).
  destruct (proj2 (one_outstanding_fifo Json.parse [Socket true])
              twoCommands twoReplies H1 H2 H3 H4 isReply_two) as [W A].
  split; [exact W|]. apply (A 1 (muteReply, muteEnvelope)); [cbn; lia|reflexivity].
Defined.

Lemma timeout_rejects_and_advances_witness :
  let ts := [Socket true; Submit twoCommands] in
  let s := run Json.parse ts initial in
  (timers s < nextId s /\ settled s !! timers s = None)
  /\ settled (turn Json.parse Timeout s) !! timers s = Some (Rejected SendTimeout).
Proof.
  intros ts s.
  assert (L : timers s < nextId s) by (vm_compute; lia).
  assert (U : settled s !! timers s = None) by (vm_compute; reflexivity).
  split; [split; assumption|].
  exact (proj1 (timeout_rejects_and_advances Json.parse ts L U)).
Defined.


(** * Properties of the connection *)

Section ConnectionFacts.
Import Connection.

(** C9, where the code departs from it: the first connection arms the
    timer and [disconnect()] clears it, but [disconnect()] leaves the
    cleared handle in [_watchdog], so the connection made after it finds
    [_watchdog] set and arms nothing: the object is connected and no
    watchdog timer is active. *)
Theorem watchdog_not_rearmed :
  let s1 := run firstConnect initial in
  let s2 := run [CallDisconnect; SockClose 0] s1 in
  let s3 := run [CallConnect; SockConnect 1; Handshake 1 true] s2 in
  (_state s1 = connected /\ _watchdog s1 = Some 0 /\ intervals s1 = [true])
  /\ (_state s2 = disconnected /\ _watchdog s2 = Some 0 /\ intervals s2 = [false])
  /\ (_state s3 = connected /\ _watchdog s3 = Some 0 /\ intervals s3 = [false]
      /\ forall h, handle (Tick h) s3 = s3).
Proof.
  vm_compute. repeat split; try reflexivity.
  intros [|[|h]]; reflexivity.
Qed.


Lemma filter_fresh (rs : list (nat * kont)) (p : nat) :
  (forall q k, (q, k) ∈ rs -> q < p) ->
  filter (fun pk => Nat.eqb (fst pk) p) rs = []
  /\ filter (fun pk => negb (Nat.eqb (fst pk) p)) rs = rs.
Proof.
  induction rs as [|[q k] rs IH]; intros H; [split; reflexivity|].
  assert (L : q < p) by (apply (H q k), list_elem_of_In; left; reflexivity).
  destruct IH as [IH1 IH2].
  { intros q' k' Hq. apply (H q' k'), list_elem_of_In. right.
    apply list_elem_of_In, Hq. }
  assert (E : Nat.eqb q p = false) by (apply Nat.eqb_neq; lia).
  split.
  - rewrite filter_cons_False; [exact IH1|]. cbn. rewrite E. auto.
  - rewrite filter_cons_True; [rewrite IH2; reflexivity|]. cbn. rewrite E. exact I.
Qed.

Lemma runJobs_done fuel (s : Conn) : jobs s = [] -> runJobs fuel s = s.
Proof. intros H. destruct fuel; cbn [runJobs]; [reflexivity|]. rewrite H. reflexivity. Qed.

Lemma filter_other (rs : list (nat * kont)) (p : nat) :
  (forall q k, (q, k) ∈ rs -> q <> p) ->
  filter (fun pk => Nat.eqb (fst pk) p) rs = []
  /\ filter (fun pk => negb (Nat.eqb (fst pk) p)) rs = rs.
Proof.
  induction rs as [|[q k] rs IH]; intros H; [split; reflexivity|].
  assert (L : q <> p) by (apply (H q k), list_elem_of_In; left; reflexivity).
  destruct IH as [IH1 IH2].
  { intros q' k' Hq. apply (H q' k'), list_elem_of_In. right.
    apply list_elem_of_In, Hq. }
  assert (E : Nat.eqb q p = false) by (apply Nat.eqb_neq; lia).
  split.
  - rewrite filter_cons_False; [exact IH1|]. cbn. rewrite E. auto.
  - rewrite filter_cons_True; [rewrite IH2; reflexivity|]. cbn. rewrite E. exact I.
Qed.

(** What [settleP] does to a promise that has not settled. *)
Lemma settleP_fresh (p : nat) (r : presult) (s : Conn) :
  promises s !! p = None ->
  settleP p r s
  = set_jobs (jobs s ++ map (fun pk => (snd pk, r))
                          (filter (fun pk => Nat.eqb (fst pk) p) (reactions s)))
      (set_reactions (filter (fun pk => negb (Nat.eqb (fst pk) p)) (reactions s))
         (set_promises (<[p := r]> (promises s)) s)).
Proof. intros H. unfold settleP. rewrite H. reflexivity. Qed.

(** A caller gets the outcome of the promise it waited for. *)
Lemma runJobs_adopt (fuel a : nat) (r : presult) rest (s : Conn) :
  jobs s = (KAdopt a, r) :: rest -> promises s !! a = None ->
  (forall q k, (q, k) ∈ reactions s -> q <> a) ->
  runJobs (S fuel) s
  = runJobs fuel (set_jobs rest (set_promises (<[a := r]> (promises s)) s)).
Proof.
  intros J N F. cbn [runJobs]. rewrite J. f_equal. cbn [runKont].
  rewrite settleP_fresh by (destruct s; exact N).
  destruct (filter_other (reactions s) a F) as [F1 F2].
  destruct s as [st so cp dp rp wd wp pb sk iv pr np re jb em un].
  cbn -[lookup insert filter] in *. rewrite F1, F2. cbn. rewrite app_nil_r.
  reflexivity.
Qed.

(** [connect()] on a disconnected object. *)
Lemma connect_disconnected (s : Conn) :
  _state s = disconnected -> promises s !! S (nextPromise s) = None ->
  fst (connect s) = nextPromise s
  /\ _state (snd (connect s)) = connecting
  /\ _connectPromise (snd (connect s)) = Some (S (nextPromise s))
  /\ length (sockets (snd (connect s))) = S (length (sockets s))
  /\ promises (snd (connect s)) = promises s
  /\ nextPromise (snd (connect s)) = S (S (nextPromise s))
  /\ reactions (snd (connect s))
     = (reactions s ++ [(S (nextPromise s), KAdopt (nextPromise s))])%list
  /\ jobs (snd (connect s)) = jobs s.
Proof.
  intros St N.
  destruct s as [st so cp dp rp wd wp pb sk iv pr np re jb em un].
  cbn -[lookup] in *. subst st.
  unfold connect, newPromise, _connect. cbn -[lookup].
  unfold connectBody, newPromise. cbn -[lookup].
  unfold onSettled. cbn -[lookup]. rewrite N. cbn -[lookup].
  rewrite length_app. cbn. repeat split; auto. lia.
Qed.

(** [connect()] on an object that is connecting. *)
Lemma connect_connecting (s : Conn) (p : nat) :
  _state s = connecting -> _connectPromise s = Some p ->
  fst (connect s) = nextPromise s
  /\ _state (snd (connect s)) = connecting
  /\ _connectPromise (snd (connect s)) = Some p
  /\ sockets (snd (connect s)) = sockets s
  /\ _socket (snd (connect s)) = _socket s
  /\ emits (snd (connect s)) = emits s
  /\ promises (snd (connect s)) = promises s
  /\ nextPromise (snd (connect s)) = S (nextPromise s)
  /\ match promises s !! p with
     | None =>
         reactions (snd (connect s))
         = (reactions s ++ [(p, KAdopt (nextPromise s))])%list
         /\ jobs (snd (connect s)) = jobs s
     | Some r =>
         reactions (snd (connect s)) = reactions s
         /\ jobs (snd (connect s)) = (jobs s ++ [(KAdopt (nextPromise s), r)])%list
     end.
Proof.
  intros St Cp.
  destruct s as [st so cp dp rp wd wp pb sk iv pr np re jb em un].
  cbn -[lookup] in *. subst st cp.
  unfold connect, newPromise, _connect. cbn -[lookup].
  unfold onSettled. cbn -[lookup].
  destruct (pr !! p); cbn -[lookup]; repeat split; auto.
Qed.

Lemma work_two (a b : kont) (r : presult) (s : Conn) :
  jobs s = [(a, r); (b, r)] -> exists n, work s = S (S n).
Proof.
  intros J. unfold work. rewrite J. cbn [map list_sum fst].
  destruct a, b; cbn; eexists; reflexivity.
Qed.

(** C4: [connect()] on an object that is connecting makes no socket and
    takes the outcome of the attempt in flight; two calls of [connect()]
    in a row on a disconnected object make one socket, and however the
    promise of that attempt settles, both callers get that outcome. *)
Theorem connect_shares_attempt (s : Conn) :
  (forall p, _state s = connecting -> _connectPromise s = Some p ->
     let c := fst (connect s) in
     let s' := snd (connect s) in
     sockets s' = sockets s /\ _socket s' = _socket s /\ _state s' = connecting
     /\ _connectPromise s' = Some p /\ emits s' = emits s
     /\ match promises s !! p with
        | None => reactions s' = (reactions s ++ [(p, KAdopt c)])%list
        | Some r => jobs s' = (jobs s ++ [(KAdopt c, r)])%list
        end)
  /\ (_state s = disconnected -> wellFormed s ->
      let c1 := fst (connect s) in
      let s1 := snd (connect s) in
      let c2 := fst (connect s1) in
      let s2 := snd (connect s1) in
      length (sockets s2) = S (length (sockets s))
      /\ _state s2 = connecting /\ c1 <> c2
      /\ exists p, _connectPromise s2 = Some p
           /\ forall r, let s3 := runMicrotasks (settleP p r s2) in
                promises s3 !! c1 = Some r /\ promises s3 !! c2 = Some r
                /\ jobs s3 = []).
Proof.
  split.
  - intros p St Cp.
    destruct (connect_connecting s p St Cp) as (A1 & A2 & A3 & A4 & A5 & A6 & A7 & A8 & A9).
    cbv zeta. rewrite A1, A2, A3, A4, A5, A6.
    destruct (promises s !! p); destruct A9; auto 10.
  - intros St (W1 & W2 & W3).
    assert (N0 : promises s !! nextPromise s = None) by (apply W1; lia).
    assert (N1 : promises s !! S (nextPromise s) = None) by (apply W1; lia).
    assert (N2 : promises s !! S (S (nextPromise s)) = None) by (apply W1; lia).
    destruct (connect_disconnected s St N1) as (A1 & A2 & A3 & A4 & A5 & A6 & A7 & A8).
    cbv zeta. set (s1 := snd (connect s)) in *.
    destruct (connect_connecting s1 _ A2 A3) as (B1 & B2 & B3 & B4 & B5 & B6 & B7 & B8 & B9).
    rewrite A5, N1 in B9. destruct B9 as [B9 B10].
    set (s2 := snd (connect s1)) in *.
    rewrite A1, B1, A6, B2, B4, A4.
    split; [reflexivity|]. split; [reflexivity|]. split; [lia|].
    exists (S (nextPromise s)). split; [exact B3|]. intros r.
    assert (P2 : promises s2 = promises s) by congruence.
    rewrite settleP_fresh by (rewrite P2; exact N1).
    destruct (filter_other (reactions s) (S (nextPromise s))) as [F1 F2].
    { intros q k Hq. specialize (W2 q k Hq). lia. }
    assert (G1 : filter (fun pk : nat * kont => Nat.eqb (fst pk) (S (nextPromise s)))
                   (reactions s2)
                 = [(S (nextPromise s), KAdopt (nextPromise s));
                    (S (nextPromise s), KAdopt (S (S (nextPromise s))))]).
    { rewrite B9, A7, A6, !filter_app, F1.
      rewrite !filter_cons_True by (cbn; rewrite Nat.eqb_refl; exact I).
      reflexivity. }
    assert (G2 : filter (fun pk : nat * kont => negb (Nat.eqb (fst pk) (S (nextPromise s))))
                   (reactions s2)
                 = reactions s).
    { rewrite B9, A7, A6, !filter_app, F2.
      rewrite !filter_cons_False by (cbn; rewrite Nat.eqb_refl; auto).
      cbn. rewrite !app_nil_r. reflexivity. }
    rewrite G1, G2, B10, A8, W3, P2. cbn [map app fst snd].
    set (t := set_jobs _ _).
    assert (Jt : jobs t = [(KAdopt (nextPromise s), r);
                           (KAdopt (S (S (nextPromise s))), r)])
      by (subst t; destruct s2; reflexivity).
    assert (Pt : promises t = <[S (nextPromise s) := r]> (promises s))
      by (subst t; destruct s2; reflexivity).
    assert (Rt : reactions t = reactions s) by (subst t; destruct s2; reflexivity).
    destruct (work_two _ _ _ t Jt) as [n Wt].
    unfold runMicrotasks. rewrite Wt.
    rewrite (runJobs_adopt _ _ _ _ t Jt).
    2: { rewrite Pt, lookup_insert_ne by lia. exact N0. }
    2: { rewrite Rt. intros q k Hq. specialize (W2 q k Hq). lia. }
    set (t1 := set_jobs _ _).
    assert (Jt1 : jobs t1 = [(KAdopt (S (S (nextPromise s))), r)])
      by (subst t1; destruct t; reflexivity).
    assert (Pt1 : promises t1 = <[nextPromise s := r]> (promises t))
      by (subst t1; destruct t; reflexivity).
    assert (Rt1 : reactions t1 = reactions s)
      by (subst t1; destruct t; cbn in *; assumption).
    rewrite (runJobs_adopt _ _ _ _ t1 Jt1).
    2: { rewrite Pt1, Pt, !lookup_insert_ne by lia. exact N2. }
    2: { rewrite Rt1. intros q k Hq. specialize (W2 q k Hq). lia. }
    set (t2 := set_jobs _ _).
    assert (Jt2 : jobs t2 = []) by (subst t2; destruct t1; reflexivity).
    assert (Pt2 : promises t2 = <[S (S (nextPromise s)) := r]> (promises t1))
      by (subst t2; destruct t1; reflexivity).
    rewrite runJobs_done by exact Jt2. rewrite Pt2, Pt1.
    split; [|split; [|exact Jt2]].
    + rewrite lookup_insert_ne by lia. apply lookup_insert_eq.
    + apply lookup_insert_eq.
Qed.

Lemma connect_shares_attempt_witness :
  (_state initial = disconnected /\ wellFormed initial)
  /\ length (sockets (snd (connect (snd (connect initial))))) = 1.
Proof.
  assert (W : wellFormed initial).
  { split; [|split].
    - intros q _. apply lookup_empty.
    - intros q k Hq. apply list_elem_of_In in Hq. destruct Hq.
    - reflexivity. }
  split; [split; [reflexivity|exact W]|].
  exact (proj1 (proj2 (connect_shares_attempt initial) eq_refl W)).
Defined.

(** ** The reconnect cycle *)


(** [reconnect()] with no cycle in flight queues the start of one. *)
Lemma reconnect_starts (s : Conn) :
  _reconnectPromise s = None -> promises s !! S (nextPromise s) = None ->
  let c := fst (reconnect s) in
  let s' := snd (reconnect s) in
  emits s' = emits s /\ _reconnectPromise s' = Some (S (nextPromise s))
  /\ jobs s' = (jobs s ++ [(KReconnectStart (S (nextPromise s)), Fulfilled)])%list
  /\ reactions s' = (reactions s ++ [(S (nextPromise s), KAdopt c)])%list.
Proof.
  intros R N.
  destruct s as [st so cp dp rp' wd wp pb sk iv pr np re jb em un].
  cbn -[lookup] in *. subst rp'.
  unfold reconnect, newPromise. cbn -[lookup]. unfold onSettled. cbn -[lookup].
  rewrite N. cbn -[lookup]. repeat split; auto.
Qed.















(** ** The microtasks come to an end *)

Lemma list_sum_cons (x : nat) (l : list nat) : list_sum (x :: l) = x + list_sum l.
Proof. reflexivity. Qed.

Ltac sum_norm :=
  cbn [map fst snd jobs reactions];
  rewrite ?list_sum_cons; change (list_sum []) with 0.

Lemma work_split (re : list (nat * kont)) (p : nat) (r : presult) :
  list_sum (map (fun j : kont * presult => 2 * weight (fst j))
              (map (fun pk : nat * kont => (snd pk, r))
                 (filter (fun pk : nat * kont => Nat.eqb (fst pk) p) re)))
  + list_sum (map (fun pk : nat * kont => 2 * weight (snd pk) + 1)
                (filter (fun pk : nat * kont => negb (Nat.eqb (fst pk) p)) re))
  <= list_sum (map (fun pk : nat * kont => 2 * weight (snd pk) + 1) re).
Proof.
  induction re as [|[q k] re IH]; [cbn; lia|].
  destruct (Nat.eqb q p) eqn:E.
  - rewrite filter_cons_True by (cbn; rewrite E; exact I).
    rewrite filter_cons_False by (cbn; rewrite E; auto).
    sum_norm. lia.
  - rewrite filter_cons_False by (cbn; rewrite E; auto).
    rewrite filter_cons_True by (cbn; rewrite E; exact I).
    sum_norm. lia.
Qed.

Lemma work_settleP p r (s : Conn) : work (settleP p r s) <= work s.
Proof.
  unfold settleP. destruct (promises s !! p); [lia|].
  pose proof (work_split (reactions s) p r) as H.
  destruct s as [st so cp dp rp' wd wp pb sk iv pr np re jb em un].
  unfold work in *. cbn [jobs reactions set_jobs set_reactions set_promises] in *.
  rewrite map_app, list_sum_app. lia.
Qed.

Lemma work_onSettled p k (s : Conn) :
  work (onSettled p k s) <= work s + 2 * weight k + 1.
Proof.
  unfold onSettled. destruct (promises s !! p);
    destruct s as [st so cp dp rp' wd wp pb sk iv pr np re jb em un];
    unfold work; cbn [jobs reactions set_jobs set_reactions];
    rewrite map_app, list_sum_app; sum_norm; lia.
Qed.

Lemma work_awaitValue v k (s : Conn) :
  work (awaitValue v k s) <= work s + 2 * weight k + 1.
Proof.
  destruct v; [apply work_onSettled|].
  destruct s as [st so cp dp rp' wd wp pb sk iv pr np re jb em un].
  unfold work. cbn [awaitValue jobs reactions set_jobs].
  rewrite map_app, list_sum_app. sum_norm. lia.
Qed.

Lemma work_same (s s' : Conn) : sameWork s s' -> work s' = work s.
Proof. intros [A B]. unfold work. rewrite A, B. reflexivity. Qed.

Lemma work_connectBody c (s : Conn) : work (connectBody c s) <= work s + 3.
Proof.
  unfold connectBody.
  destruct (newPromise s) as [p s1] eqn:N.
  set (s5 := set_connectPromise _ _).
  assert (E : work s5 = work s).
  { apply work_same. unfold newPromise in N. injection N as _ <-.
    subst s5. destruct s; split; reflexivity. }
  pose proof (work_onSettled p (KAdopt c) s5) as H. cbn [weight] in H. lia.
Qed.

Lemma work_disconnectBody c (s : Conn) : work (disconnectBody c s) <= work s + 3.
Proof.
  unfold disconnectBody.
  destruct (newPromise (_setState disconnecting s)) as [d s2] eqn:N.
  assert (E2 : work s2 = work s).
  { apply work_same. unfold newPromise in N. injection N as _ <-.
    destruct s; split; reflexivity. }
  set (s3 := match _socket s2 with Some _ => _ | None => _ end).
  assert (E3 : work s3 <= work s).
  { subst s3. destruct (_socket s2) as [sid|].
    - rewrite <- E2. apply Nat.eq_le_incl, work_same. unfold updateSock.
      destruct (sockets s2 !! sid); destruct s2; split; reflexivity.
    - rewrite <- E2. apply work_settleP. }
  assert (E4 : work (set_disconnectPromise (Some d) s3) = work s3)
    by (apply work_same; destruct s3; split; reflexivity).
  pose proof (work_onSettled d (KAdopt c) (set_disconnectPromise (Some d) s3)) as H.
  cbn [weight] in H. lia.
Qed.

Lemma work_connect c (s : Conn) : work (_connect c s) <= work s + 5.
Proof.
  unfold _connect. destruct (_state s).
  - pose proof (work_connectBody c s). lia.
  - pose proof (work_awaitValue (_connectPromise s) (KAdopt c) s) as H.
    cbn [weight] in H. lia.
  - pose proof (work_settleP c Fulfilled s). lia.
  - pose proof (work_awaitValue (_disconnectPromise s) (KConnectResume c) s) as H.
    cbn [weight] in H. lia.
Qed.

Lemma work_disconnect c (s : Conn) : work (_disconnect c s) <= work s + 5.
Proof.
  unfold _disconnect. destruct (_state s).
  - pose proof (work_settleP c Fulfilled s). lia.
  - pose proof (work_awaitValue (_connectPromise s) (KDisconnectResume c) s) as H.
    cbn [weight] in H. lia.
  - pose proof (work_disconnectBody c s). lia.
  - pose proof (work_awaitValue (_disconnectPromise s) (KAdopt c) s) as H.
    cbn [weight] in H. lia.
Qed.

(** Running a piece of waiting code starts less work than its weight. *)
Lemma work_runKont k r (s : Conn) : work (runKont k r s) < work s + 2 * weight k.
Proof.
  destruct k; cbn [runKont weight].
  - pose proof (work_settleP caller r s). lia.
  - pose proof (work_connectBody caller s). lia.
  - pose proof (work_disconnectBody caller s). lia.
  - destruct (newPromise (emit "reconnecting" s)) as [d s2] eqn:N.
    assert (E2 : work s2 = work s).
    { apply work_same. unfold newPromise in N. injection N as _ <-.
      destruct s; split; reflexivity. }
    pose proof (work_disconnect d s2).
    pose proof (work_onSettled d (KReconnectConnect rp) (_disconnect d s2)) as H1.
    cbn [weight] in H1. lia.
  - destruct (newPromise s) as [c s1] eqn:N.
    assert (E1 : work s1 = work s).
    { apply work_same. unfold newPromise in N. injection N as _ <-.
      destruct s; split; reflexivity. }
    pose proof (work_connect c s1).
    pose proof (work_onSettled c (KReconnectDone rp) (_connect c s1)) as H1.
    cbn [weight] in H1. lia.
  - destruct r as [|e].
    + pose proof (work_settleP rp Fulfilled
                    (set_reconnectPromise None (emit "reconnected" s))) as H.
      assert (E : work (set_reconnectPromise None (emit "reconnected" s)) = work s)
        by (apply work_same; destruct s; split; reflexivity).
      lia.
    + pose proof (work_settleP rp (RejectedWith e)
                    (set_reconnectPromise None (emit "reconnect_error" s))) as H.
      assert (E : work (set_reconnectPromise None (emit "reconnect_error" s)) = work s)
        by (apply work_same; destruct s; split; reflexivity).
      lia.
  - assert (E : work (set_watchdogPromise None s) = work s)
      by (apply work_same; destruct s; split; reflexivity).
    lia.
Qed.

Lemma runJobs_total fuel : forall (s : Conn),
  work s <= fuel -> jobs (runJobs fuel s) = [].
Proof.
  induction fuel as [|fuel IH]; intros s H.
  - cbn [runJobs]. unfold work in H. destruct (jobs s) as [|[k r] rest]; [reflexivity|].
    cbn [map fst] in H. rewrite list_sum_cons in H.
    destruct k; cbn [weight] in H; lia.
  - cbn [runJobs]. destruct (jobs s) as [|[k r] rest] eqn:J; [exact J|].
    apply IH.
    pose proof (work_runKont k r (set_jobs rest s)) as W.
    assert (E : work s = 2 * weight k + work (set_jobs rest s)).
    { unfold work. rewrite J. destruct s; cbn [jobs reactions set_jobs map fst].
      rewrite list_sum_cons. lia. }
    lia.
Qed.

(** Every turn of the event loop ends with no microtask left. *)
Theorem microtasks_drain (e : event) (s : Conn) : jobs (step e s) = [].
Proof. unfold step, runMicrotasks. apply runJobs_total. lia. Qed.

End ConnectionFacts.

(** * Further properties of the dispatch queue *)

Section MoreDispatchFacts.

Variable JSON_parse : string -> option json.

Lemma sorted_seq (n : nat) : forall k, StronglySorted lt (seq k n).
Proof.
  induction n as [|n IH]; intros k; cbn; constructor; [apply IH|].
  apply Forall_forall. intros j Hj. apply list_elem_of_In, in_seq in Hj. lia.
Qed.

Lemma run_app (a b : list task) (s : State) :
  run JSON_parse (a ++ b) s = run JSON_parse b (run JSON_parse a s).
Proof. unfold run. apply foldl_app. Qed.

(** Once the race of a call has settled, its outcome is the same after any
    further turns of the event loop: a later reply, timer or failed write
    changes nothing for that caller. *)
Theorem outcome_is_final (ts more : list task) (j : nat) (r : outcome) :
  settled (run JSON_parse ts initial) !! j = Some r ->
  settled (run JSON_parse (ts ++ more) initial) !! j = Some r.
Proof.
  intros H. rewrite run_app. apply run_mono. exact H.
Qed.

(** Between two turns no handler is left to run; when no call is awaited
    the queue is empty, and when one is awaited neither it nor any queued
    call has settled. *)
Theorem queue_never_stalls (ts : list task) :
  let s := run JSON_parse ts initial in
  pending s = []
  /\ (_currentSendQueueItem s = None -> _sendQueue s = [])
  /\ (forall c, _currentSendQueueItem s = Some c ->
        forall x, x ∈ c :: _sendQueue s -> settled s !! id x = None).
Proof.
  intros s. destruct (invariant_reachable JSON_parse ts) as (k & C & Sh & P & E).
  fold s in C, Sh, P, E. split; [exact P|]. split; [exact E|].
  intros c Cur x Hx. apply list_elem_of_In in Hx. destruct Hx as [<-|Hx].
  - destruct Sh as [[_ U]|(c' & _ & P' & _)]; [auto|congruence].
  - destruct C as [_ _ _ _ _ Cq _ _ _ _]. apply Cq, list_elem_of_In, Hx.
Qed.

(** No call is lost: the calls are numbered in the order of submission,
    every call made so far has settled or is still held (awaited first,
    then queued, in the order of submission), and each held entry carries
    the command that was submitted under its number. *)
Theorem calls_accounted_for (ts : list task) :
  let s := run JSON_parse ts initial in
  nextId s = length (submissions ts)
  /\ StronglySorted lt (map id (held s))
  /\ (forall x, x ∈ held s ->
        id x < nextId s /\ submissions ts !! id x = Some (icommand x, qs x))
  /\ (forall j, j < nextId s ->
        is_Some (settled s !! j) \/ exists x, x ∈ held s /\ id x = j)
  /\ (forall j, nextId s <= j -> settled s !! j = None).
Proof.
  intros s. destruct (invariant_reachable JSON_parse ts) as (k & C & _).
  fold s in C. destruct C as [Cids Ck Cn Cit Cd Cq Cf Ct Cs Cw].
  split; [exact Cn|]. split; [rewrite Cids; apply sorted_seq|].
  split; [|split; [|exact Cf]].
  - intros x Hx. split; [|apply Cit, Hx].
    assert (I : In (id x) (seq k (nextId s - k))).
    { rewrite <- Cids. apply in_map, list_elem_of_In, Hx. }
    apply in_seq in I. lia.
  - intros j Hj. destruct (Nat.lt_ge_cases j k) as [L|G]; [left; apply Cd, L|].
    right. assert (I : In j (map id (held s))).
    { rewrite Cids. apply in_seq. lia. }
    apply in_map_iff in I. destruct I as (x & Hx & I).
    exists x. split; [apply list_elem_of_In, I|exact Hx].
Qed.

(** A call whose timer has fired has settled: no caller waits longer than
    the timeout. *)
Theorem fired_timer_means_settled (ts : list task) :
  let s := run JSON_parse ts initial in
  timers s <= nextId s
  /\ forall j, j < timers s -> is_Some (settled s !! j).
Proof.
  intros s. destruct (invariant_reachable JSON_parse ts) as (k & C & _).
  fold s in C. destruct C as [_ _ _ _ _ _ _ Ct _ _]. exact Ct.
Qed.

(** What the queue's code never touches. *)
Lemma frame_settle i o (s : State) :
  _socket (settle i o s) = _socket s /\ _rxBuffer (settle i o s) = _rxBuffer s
  /\ emits (settle i o s) = emits s /\ timers (settle i o s) = timers s
  /\ nextId (settle i o s) = nextId s.
Proof. unfold settle. destruct (settled s !! i); destruct s; auto. Qed.

Lemma frame_next fuel : forall (s : State),
  _socket (nextSendQueueItem fuel s) = _socket s
  /\ _rxBuffer (nextSendQueueItem fuel s) = _rxBuffer s
  /\ emits (nextSendQueueItem fuel s) = emits s
  /\ timers (nextSendQueueItem fuel s) = timers s.
Proof.
  induction fuel as [|fuel IH]; intros s; [auto|].
  cbn [nextSendQueueItem]. destruct (_currentSendQueueItem s); [auto|].
  destruct (_sendQueue s) as [|x q]; [auto|].
  unfold _write. destruct (_socket (set_current (Some x) (set_sendQueue q s))).
  - destruct s; auto.
  - destruct (IH (settle (id x) (Rejected NotConnected)
                    (set_current (Some x) (set_sendQueue q s)))) as (A & B & C & D).
    destruct (frame_settle (id x) (Rejected NotConnected)
                (set_current (Some x) (set_sendQueue q s))) as (A' & B' & C' & D' & _).
    rewrite A, B, C, D, A', B', C', D'. destruct s; auto.
Qed.

Lemma frame_drain fuel : forall (s : State),
  _socket (drain fuel s) = _socket s /\ _rxBuffer (drain fuel s) = _rxBuffer s
  /\ emits (drain fuel s) = emits s /\ timers (drain fuel s) = timers s.
Proof.
  induction fuel as [|fuel IH]; intros s; [auto|].
  cbn [drain]. destruct (pending s) as [|h p]; [auto|].
  destruct (IH (afterRace (set_settled (settled s) p s))) as (A & B & C & D).
  unfold afterRace, _nextSendQueueItem in *.
  destruct (frame_next (S (length (_sendQueue (set_current None (set_settled (settled s) p s)))))
              (set_current None (set_settled (settled s) p s))) as (A' & B' & C' & D').
  rewrite A, B, C, D, A', B', C', D'. destruct s; auto.
Qed.

(** With no socket, draining the queue rejects every entry. *)
Lemma drain_no_socket subs (fuel : nat) : forall k (s : State) c,
  core subs k s -> _currentSendQueueItem s = Some c -> pending s = [id c] ->
  is_Some (settled s !! id c) -> _socket s = false ->
  length (_sendQueue s) < fuel ->
  let s' := drain fuel s in
  written s' = written s /\ _currentSendQueueItem s' = None
  /\ _sendQueue s' = [] /\ pending s' = []
  /\ forall x, x ∈ _sendQueue s -> settled s' !! id x = Some (Rejected NotConnected).
Proof.
  induction fuel as [|fuel IH]; intros k s c C Cur P St Sock L; [lia|].
  cbn [drain]. rewrite P.
  pose proof (clear_core subs k s c C Cur St) as C0.
  unfold afterRace.
  set (s0 := set_current None (set_settled (settled s) [] s)) in *.
  destruct (next_free subs (S k) s0 C0 eq_refl eq_refl) as (C1 & _ & _ & D).
  change (_sendQueue s0) with (_sendQueue s) in D.
  change (_socket s0) with (_socket s) in D. rewrite Sock in D.
  assert (W0 : written s0 = written s) by (destruct s; reflexivity).
  destruct (_sendQueue s) as [|x q] eqn:Q.
  - rewrite D. rewrite drain_idle by reflexivity. cbv zeta.
    split; [exact W0|]. split; [reflexivity|].
    split; [change (_sendQueue s0) with (_sendQueue s); exact Q|].
    split; [reflexivity|]. intros x Hx. apply list_elem_of_In in Hx. destruct Hx.
  - destruct D as (D1 & D2 & D3 & D4 & D5).
    set (s1 := _nextSendQueueItem s0) in *.
    assert (Sock1 : _socket s1 = false).
    { subst s1. unfold _nextSendQueueItem.
      destruct (frame_next (S (length (_sendQueue s0))) s0) as (A & _).
      rewrite A. destruct s; exact Sock. }
    destruct (IH (S k) s1 x C1 D1 D4) as (A1 & A2 & A3 & A4 & A5).
    { rewrite D5. eauto. }
    { exact Sock1. }
    { rewrite D2. cbn in L. lia. }
    cbv zeta. split; [congruence|]. split; [exact A2|]. split; [exact A3|].
    split; [exact A4|]. intros y Hy. apply list_elem_of_In in Hy.
    destruct Hy as [<-|Hy].
    + apply drain_mono. exact D5.
    + apply A5. rewrite D2. apply list_elem_of_In, Hy.
Qed.

(** Commands submitted while there is no socket are all rejected with
    [not_connected]; nothing is written, and the object is idle again at
    the end of the turn. *)
Theorem no_socket_rejects_all (ts : list task)
  (cmds : list (string * list (string * QueryString.qsvalue))) :
  let s := run JSON_parse ts initial in
  _socket s = false -> _currentSendQueueItem s = None ->
  let s' := turn JSON_parse (Submit cmds) s in
  written s' = written s
  /\ _currentSendQueueItem s' = None /\ _sendQueue s' = [] /\ pending s' = []
  /\ forall n, n < length cmds ->
       settled s' !! (nextId s + n) = Some (Rejected NotConnected).
Proof.
  intros s Sock Cur.
  destruct (invariant_reachable JSON_parse ts) as (k & C & Sh & P & E).
  fold s in C, Sh, P, E. specialize (E Cur).
  destruct cmds as [|c cs].
  - cbv zeta. unfold turn, submit. cbn [foldl]. unfold runMicrotasks.
    rewrite drain_idle by exact P. split; [reflexivity|].
    split; [exact Cur|]. split; [exact E|]. split; [exact P|].
    intros n Hn. cbn in Hn. lia.
  - destruct (submit_ok (c :: cs) _ k s C Sh (fun _ _ => E)) as (C4 & _).
    cbv zeta. unfold turn. unfold submit in *. cbn [foldl] in *.
    fold (submit cs (snd (send (fst c) (snd c) s))) in *.
    pose proof (push_core (submissions ts) k s (fst c) (snd c) C) as C2.
    unfold send in *. cbn [snd] in *.
    set (s2 := set_sendQueue _ _) in *.
    assert (F : _currentSendQueueItem s2 = None /\ pending s2 = []
                /\ _sendQueue s2 = [Item (nextId s) (fst c) (snd c)]
                /\ _socket s2 = false /\ written s2 = written s
                /\ nextId s2 = S (nextId s)).
    { subst s2. destruct s; cbn in *. subst. auto 10. }
    destruct F as (F1 & F2 & F3 & F4 & F5 & F6).
    destruct (next_free _ k s2 C2 F1 F2) as (_ & _ & _ & D).
    rewrite F3, F4 in D. destruct D as (D1 & D2 & D3 & D4 & D5).
    set (s3 := _nextSendQueueItem s2) in *.
    assert (N3 : nextId s3 = S (nextId s) /\ _socket s3 = false).
    { subst s3. unfold _nextSendQueueItem. rewrite nextId_next.
      destruct (frame_next (S (length (_sendQueue s2))) s2) as (A & _).
      rewrite A. auto. }
    destruct N3 as (N3 & K3).
    destruct (submit_awaiting cs s3 _ D1) as (A1 & A2 & A3 & A4 & A5 & A6 & A7).
    set (s4 := submit cs s3) in *.
    cbn [id] in D4, D5.
    assert (St4 : settled s4 !! nextId s = Some (Rejected NotConnected)) by congruence.
    destruct (drain_no_socket _ (2 * length (_sendQueue s4) + length (pending s4))
                k s4 _ C4 A1) as (B1 & B2 & B3 & B4 & B5).
    { rewrite A4, D4. reflexivity. }
    { cbn [id]. rewrite St4. eauto. }
    { congruence. }
    { rewrite A4, D4. cbn. lia. }
    unfold runMicrotasks.
    split; [congruence|]. split; [exact B2|]. split; [exact B3|].
    split; [exact B4|]. intros n Hn. destruct n as [|n].
    + rewrite Nat.add_0_r. apply drain_mono. exact St4.
    + destruct (itemsFrom_lookup cs (S (nextId s)) n) as (y & Y1 & Y2);
        [cbn in Hn; lia|].
      replace (nextId s + S n) with (id y) by lia.
      apply B5. rewrite A2, D2, N3. cbn [app].
      apply list_elem_of_lookup. eauto.
Qed.

Lemma frame_timeout (s : State) :
  _socket (turn JSON_parse Timeout s) = _socket s
  /\ _rxBuffer (turn JSON_parse Timeout s) = _rxBuffer s
  /\ emits (turn JSON_parse Timeout s) = emits s.
Proof.
  unfold turn, runMicrotasks.
  destruct (frame_drain (2 * length (_sendQueue (onTimeout s)) + length (pending (onTimeout s)))
              (onTimeout s)) as (A & B & C & _).
  rewrite A, B, C. unfold onTimeout.
  destruct (timers s <? nextId s)%nat; [|auto].
  destruct (frame_settle (timers s) (Rejected SendTimeout)
              (set_timers (S (timers s)) s)) as (A' & B' & C' & _).
  rewrite A', B', C'. destruct s; auto.
Qed.

(** A reply that comes after the timeout of the command it answers is
    taken for the reply to the next command: when the awaited call times
    out with another call queued behind it, the queued command is written,
    and the next reply to arrive resolves that call, whatever command the
    reply was for. *)
Theorem late_reply_settles_next (ts : list task) (ue : string * envelope)
  (y : item) (q : list item) :
  let s := run JSON_parse ts initial in
  timers s < nextId s -> settled s !! timers s = None ->
  _socket s = true -> _rxBuffer s = "" -> _sendQueue s = y :: q ->
  isReply JSON_parse ue ->
  let s' := run JSON_parse [Timeout; replyChunk ue] s in
  settled s' !! timers s = Some (Rejected SendTimeout)
  /\ timers s < id y
  /\ settled s' !! id y = Some (Resolved (snd ue)).
Proof.
  intros s L U Sock Buf Q R.
  destruct (timeout_turn JSON_parse (submissions ts) s
              (invariant_reachable JSON_parse ts) L U) as (A & I1 & B).
  specialize (B Sock). rewrite Q in B. destruct B as (B1 & B2 & B3).
  destruct (frame_timeout s) as (F1 & F2 & _).
  assert (Hy : timers s < id y).
  { destruct (invariant_reachable JSON_parse ts) as (k & C & Sh & P & E).
    fold s in C, Sh, P, E.
    destruct (onTimeout_ok _ k s C Sh P E) as (_ & _ & _ & T).
    destruct (T L U) as (c & Cur & Hid & Hk & _).
    destruct C as [Cids _ _ _ _ _ _ _ _ _]. unfold held in Cids.
    rewrite Cur, Q in Cids. cbn [map] in Cids.
    destruct (nextId s - k) as [|[|m]]; cbn in Cids; try discriminate.
    injection Cids as _ Hy _. lia. }
  cbv zeta.
  change (run JSON_parse [Timeout; replyChunk ue] s)
    with (turn JSON_parse (replyChunk ue) (turn JSON_parse Timeout s)).
  set (s1 := turn JSON_parse Timeout s) in *.
  destruct I1 as (k1 & C1 & Sh1 & P1 & E1).
  assert (U1 : settled s1 !! id y = None).
  { destruct Sh1 as [[_ U1]|(c & _ & P' & _)]; [auto|congruence]. }
  destruct (reply_turn JSON_parse _ k1 ue s1 y C1 R) as (_ & G & _); try assumption.
  { congruence. }
  { congruence. }
  split; [|split; [exact Hy|exact G]].
  apply turn_mono. exact A.
Qed.

(** ** The framer *)

(** A chunk that completes no unit is only appended to the buffer. *)
Lemma onData_partial (chunk : string) (s : State) :
  cutAt DELIMITER (_rxBuffer s ++ chunk) = None ->
  onData JSON_parse chunk s = set_rxBuffer (_rxBuffer s ++ chunk) s.
Proof.
  intros H. unfold onData, _parseRxBuffer.
  set (s1 := set_rxBuffer _ s).
  assert (B : _rxBuffer s1 = _rxBuffer s ++ chunk) by (destruct s; reflexivity).
  destruct (String.length (_rxBuffer s1)); cbn [parseRxBuffer]; [reflexivity|].
  rewrite B, H. reflexivity.
Qed.

(** A unit split across two reads is put together again: when the first
    part completes no unit, giving the two parts one after the other is
    the same as giving them as one chunk. *)
Theorem split_chunk_reassembled (a b : string) (s : State) :
  cutAt DELIMITER (_rxBuffer s ++ a) = None ->
  onData JSON_parse b (onData JSON_parse a s) = onData JSON_parse (a ++ b) s.
Proof.
  intros H. rewrite (onData_partial a s H). unfold onData.
  assert (E : set_rxBuffer (_rxBuffer (set_rxBuffer (_rxBuffer s ++ a) s) ++ b)
                (set_rxBuffer (_rxBuffer s ++ a) s)
              = set_rxBuffer (_rxBuffer s ++ (a ++ b)) s).
  { destruct s; cbn. rewrite append_assoc. reflexivity. }
  rewrite E. reflexivity.
Qed.

Lemma cutAt_frame (u rest : string) :
  cutAt DELIMITER u = None ->
  cutAt DELIMITER (u ++ DELIMITER ++ rest) = Some (u, rest).
Proof.
  induction u as [|c t IH]; intros H.
  - rewrite append_nil_l. unfold cutAt.
    destruct (DELIMITER ++ rest) eqn:E; [discriminate E|].
    rewrite <- E, dropPrefix_app. reflexivity.
  - rewrite append_cons. cbn [cutAt] in *.
    destruct (dropPrefix DELIMITER (String c t)) eqn:D; [discriminate|].
    destruct (cutAt DELIMITER t) as [[a b]|] eqn:Ct; [discriminate|].
    rewrite (IH eq_refl).
    assert (D' : dropPrefix DELIMITER (String c (t ++ DELIMITER ++ rest)) = None).
    { unfold DELIMITER in *. cbn [dropPrefix] in *.
      destruct (Ascii.eqb "013" c); [|reflexivity].
      destruct t as [|b t']; [reflexivity|]. rewrite append_cons.
      destruct (Ascii.eqb "010" b); [discriminate|reflexivity]. }
    rewrite D'. reflexivity.
Qed.

Lemma length_append (a b : string) :
  String.length (a ++ b) = String.length a + String.length b.
Proof.
  induction a as [|c a IH]; [reflexivity|].
  rewrite append_cons. cbn [String.length]. rewrite IH. reflexivity.
Qed.

Lemma cutAt_shorter (b u rest : string) :
  cutAt DELIMITER b = Some (u, rest) ->
  String.length b = String.length u + 2 + String.length rest.
Proof.
  revert u. induction b as [|c t IH]; intros u H; [discriminate|].
  cbn [cutAt] in H.
  destruct (dropPrefix DELIMITER (String c t)) as [r|] eqn:D.
  - injection H as <- <-. apply dropPrefix_Some in D. rewrite D.
    rewrite length_append. reflexivity.
  - destruct (cutAt DELIMITER t) as [[a b']|] eqn:Ct; [|discriminate].
    injection H as <- <-. cbn [String.length]. rewrite (IH a eq_refl). lia.
Qed.

Lemma length_frames (units : list string) (tail : string) :
  length units <= String.length (frames units tail).
Proof.
  induction units as [|u units IH]; cbn [frames fold_right length]; [lia|].
  fold (frames units tail). rewrite !length_append. cbn. lia.
Qed.

Lemma frame_emit name v (s s' : State) :
  emit name v s = inl s' \/ emit name v s = inr s' ->
  _rxBuffer s' = _rxBuffer s /\ errorListener s' = errorListener s.
Proof.
  unfold emit. destruct (String.eqb name "error" && negb (errorListener s));
    intros [H|H]; inversion H; subst; destruct s; auto.
Qed.

Lemma frame_route r (s : State) :
  _rxBuffer (fst (routeResponse r s)) = _rxBuffer s
  /\ errorListener (fst (routeResponse r s)) = errorListener s.
Proof.
  unfold routeResponse. destruct (classify r) as [ev m| |].
  - destruct (emit "event" (EmitEvent ev m) s) as [s1|s1] eqn:E1; cbn [fst].
    + apply (frame_emit _ _ _ _ (or_introl E1)).
    + destruct (frame_emit _ _ _ _ (or_intror E1)) as [A1 A2].
      destruct (emit ev (EmitMessage m) s1) as [s2|s2] eqn:E2; cbn [fst].
      * destruct (frame_emit _ _ _ _ (or_introl E2)) as [B1 B2]. split; congruence.
      * destruct (frame_emit _ _ _ _ (or_intror E2)) as [B1 B2]. split; congruence.
  - destruct (_currentSendQueueItem s) as [x|]; [|auto].
    destruct r; cbn [fst]; unfold settle;
      destruct (settled s !! id x); destruct s; auto.
  - destruct s; auto.
Qed.

(** The recursion of [_parseRxBuffer] ends by itself: every call removes a
    unit from the buffer, so a bound as large as the buffer is never what
    stops it. *)
Lemma parse_fuel_enough (fuel : nat) : forall fuel' (s : State),
  String.length (_rxBuffer s) <= fuel -> String.length (_rxBuffer s) <= fuel' ->
  parseRxBuffer JSON_parse fuel s = parseRxBuffer JSON_parse fuel' s.
Proof.
  induction fuel as [|fuel IH]; intros fuel' s L L'.
  - destruct (cutAt DELIMITER (_rxBuffer s)) as [[u rest]|] eqn:C.
    + apply cutAt_shorter in C. lia.
    + destruct fuel'; cbn [parseRxBuffer]; [reflexivity|]. rewrite C. reflexivity.
  - destruct fuel' as [|fuel'].
    + destruct (cutAt DELIMITER (_rxBuffer s)) as [[u rest]|] eqn:C.
      * apply cutAt_shorter in C. lia.
      * cbn [parseRxBuffer]. rewrite C. reflexivity.
    + cbn [parseRxBuffer].
      destruct (cutAt DELIMITER (_rxBuffer s)) as [[u rest]|] eqn:C; [|reflexivity].
      apply cutAt_shorter in C.
      destruct (JSON_parse u) as [doc|]; [|reflexivity].
      destruct (_responseParser doc) as [x|r]; [reflexivity|].
      destruct (frame_route r (set_rxBuffer rest s)) as [B _].
      destruct (routeResponse r (set_rxBuffer rest s)) as [s2 again].
      cbn [fst] in B. destruct again; [|reflexivity].
      assert (B' : _rxBuffer s2 = rest) by (rewrite B; destruct s; reflexivity).
      apply IH; rewrite B'; lia.
Qed.

(** What [_parseRxBuffer] does with the first unit of the buffer. *)
Lemma parse_first (s : State) (u rest : string) :
  cutAt DELIMITER (_rxBuffer s) = Some (u, rest) ->
  _parseRxBuffer JSON_parse s
  = match JSON_parse u with
    | None => throw SyntaxError (set_rxBuffer rest s)
    | Some doc =>
        match _responseParser doc with
        | inl x => throw x (set_rxBuffer rest s)
        | inr r =>
            if snd (routeResponse r (set_rxBuffer rest s))
            then _parseRxBuffer JSON_parse (fst (routeResponse r (set_rxBuffer rest s)))
            else fst (routeResponse r (set_rxBuffer rest s))
        end
    end.
Proof.
  intros C. unfold _parseRxBuffer. pose proof (cutAt_shorter _ _ _ C) as L.
  destruct (String.length (_rxBuffer s)) as [|n] eqn:E; [lia|].
  cbn [parseRxBuffer]. rewrite C.
  destruct (JSON_parse u) as [doc|]; [|reflexivity].
  destruct (_responseParser doc) as [x|r]; [reflexivity|].
  destruct (frame_route r (set_rxBuffer rest s)) as [B _].
  destruct (routeResponse r (set_rxBuffer rest s)) as [s2 again].
  cbn [fst snd] in *. destruct again; [|reflexivity].
  assert (B' : _rxBuffer s2 = rest) by (rewrite B; destruct s; reflexivity).
  apply parse_fuel_enough; rewrite B'; lia.
Qed.

Lemma parse_none (s : State) :
  cutAt DELIMITER (_rxBuffer s) = None -> _parseRxBuffer JSON_parse s = s.
Proof.
  intros C. unfold _parseRxBuffer.
  destruct (String.length (_rxBuffer s)); cbn [parseRxBuffer]; [reflexivity|].
  rewrite C. reflexivity.
Qed.

Lemma route_event (p : json) (name : string) m (s : State) :
  (name = "error" -> errorListener s = true) ->
  routeResponse (Decoded (Envelope p (JStr (EVENT_PREFIX ++ name)) m)) s
  = (set_emits (emits s ++ [("event", EmitEvent name m); (name, EmitMessage m)]) s,
     true).
Proof.
  intros H. unfold routeResponse, classify. cbn [command message].
  assert (T : truthy (JStr (EVENT_PREFIX ++ name)) = true) by reflexivity.
  rewrite T, dropPrefix_app. unfold emit.
  assert (G : String.eqb name "error"
              && negb (errorListener
                         (set_emits (emits s ++ [("event", EmitEvent name m)]) s))
              = false).
  { destruct (String.eqb name "error") eqn:E; [|reflexivity].
    apply String.eqb_eq in E. specialize (H E).
    destruct s; cbn in *. rewrite H. reflexivity. }
  change (String.eqb "event" "error") with false. cbn [andb].
  rewrite G. destruct s; cbn. rewrite <- app_assoc. reflexivity.
Qed.

Lemma parse_events evs : forall (s : State) (tail : string),
  _rxBuffer s = frames (map (fun x => fst (fst x)) evs) tail ->
  Forall (isEventUnit JSON_parse (errorListener s)) evs ->
  cutAt DELIMITER tail = None ->
  let s' := _parseRxBuffer JSON_parse s in
  emits s' = (emits s ++ flat_map announce evs)%list
  /\ _rxBuffer s' = tail /\ sameQueue s s' /\ uncaught s' = uncaught s.
Proof.
  induction evs as [|[[u name] m] evs IH]; intros s tail B F T.
  - cbn [map frames fold_right] in B. cbv zeta.
    rewrite parse_none by (rewrite B; exact T).
    cbn [flat_map]. rewrite app_nil_r.
    split; [reflexivity|]. split; [exact B|]. split; [apply sameQueue_refl|reflexivity].
  - inversion F as [|? ? Hx F']; subst. unfold isEventUnit in Hx.
    destruct Hx as (Hcut & (doc & p & Hdoc & Hresp) & Herr).
    cbn [map frames fold_right fst] in B.
    fold (frames (map (fun x => fst (fst x)) evs) tail) in B.
    assert (C : cutAt DELIMITER (_rxBuffer s)
                = Some (u, frames (map (fun x => fst (fst x)) evs) tail)).
    { rewrite B. apply cutAt_frame, Hcut. }
    cbv zeta. rewrite (parse_first s _ _ C), Hdoc, Hresp.
    set (s1 := set_rxBuffer _ s).
    assert (E1 : errorListener s1 = errorListener s) by (destruct s; reflexivity).
    rewrite (route_event p name m s1) by (rewrite E1; exact Herr).
    cbn [fst snd].
    set (s2 := set_emits _ s1).
    assert (G : _rxBuffer s2 = frames (map (fun x => fst (fst x)) evs) tail
                /\ errorListener s2 = errorListener s
                /\ emits s2 = (emits s ++ [("event", EmitEvent name m);
                                           (name, EmitMessage m)])%list
                /\ sameQueue s s2 /\ uncaught s2 = uncaught s).
    { subst s2 s1. destruct s; cbn. repeat split; auto. }
    destruct G as (G1 & G2 & G3 & G4 & G5).
    destruct (IH s2 tail G1) as (A1 & A2 & A3 & A4).
    { rewrite G2. exact F'. }
    { exact T. }
    split; [|split; [exact A2|split; [exact (sameQueue_trans _ _ _ G4 A3)|congruence]]].
    rewrite A1, G3, <- app_assoc. reflexivity.
Qed.

(** Events that arrive together in one read are all given to the
    subscribers, in the order of the stream, whether or not a command is
    awaited; the queue is left as it is, and what has arrived of the next
    unit stays in the buffer. *)
Theorem events_in_one_chunk
  (evs : list (string * string * gmap string QueryString.qvalue))
  (tail : string) (s : State) :
  _rxBuffer s = "" ->
  Forall (isEventUnit JSON_parse (errorListener s)) evs ->
  cutAt DELIMITER tail = None ->
  let s' := onData JSON_parse (frames (map (fun x => fst (fst x)) evs) tail) s in
  emits s' = (emits s ++ flat_map announce evs)%list
  /\ _rxBuffer s' = tail /\ sameQueue s s' /\ uncaught s' = uncaught s.
Proof.
  intros B F T. unfold onData. rewrite B, append_nil_l.
  set (s1 := set_rxBuffer _ s).
  assert (G : _rxBuffer s1 = frames (map (fun x => fst (fst x)) evs) tail
              /\ errorListener s1 = errorListener s /\ emits s1 = emits s
              /\ sameQueue s s1 /\ uncaught s1 = uncaught s).
  { subst s1. destruct s; cbn. repeat split; auto. }
  destruct G as (G1 & G2 & G3 & G4 & G5).
  destruct (parse_events evs s1 tail G1) as (A1 & A2 & A3 & A4).
  { rewrite G2. exact F. }
  { exact T. }
  cbv zeta. split; [congruence|]. split; [exact A2|].
  split; [exact (sameQueue_trans _ _ _ G4 A3)|congruence].
Qed.

(** A unit that cannot be decoded is taken out of the buffer and thrown
    away with an exception that nobody catches: a syntax error when it is
    not JSON, a type error when it is the document [null]. Nothing is
    routed, and the units that follow it in the buffer are not looked at
    in this read. *)
Theorem undecodable_unit_stops_parsing (chunk u rest : string) (s : State) :
  cutAt DELIMITER (_rxBuffer s ++ chunk) = Some (u, rest) ->
  (JSON_parse u = None ->
   onData JSON_parse chunk s = throw SyntaxError (set_rxBuffer rest s))
  /\ (JSON_parse u = Some JNull ->
      onData JSON_parse chunk s = throw TypeError (set_rxBuffer rest s)).
Proof.
  intros C. unfold onData.
  set (s1 := set_rxBuffer _ s).
  assert (C1 : cutAt DELIMITER (_rxBuffer s1) = Some (u, rest))
    by (subst s1; destruct s; exact C).
  assert (E : set_rxBuffer rest s1 = set_rxBuffer rest s)
    by (subst s1; destruct s; reflexivity).
  rewrite (parse_first s1 u rest C1), E.
  split; intros H; rewrite H; reflexivity.
Qed.

(** A document with no [heos] member, or with one that is falsy, is an
    unknown response: it rejects the awaited command, and with no command
    awaited it is dropped and the parser goes on with the rest of the
    buffer. No subscriber is called for it. *)
Theorem unknown_response_rejects_awaited (chunk u rest : string) (doc : json)
  (s : State) :
  cutAt DELIMITER (_rxBuffer s ++ chunk) = Some (u, rest) ->
  JSON_parse u = Some doc -> doc <> JNull ->
  match getProp "heos" doc with
  | Some h => truthy h = false
  | None => True
  end ->
  onData JSON_parse chunk s
  = match _currentSendQueueItem s with
    | Some x => settle (id x) (Rejected UnknownHeosResponse) (set_rxBuffer rest s)
    | None => _parseRxBuffer JSON_parse (set_rxBuffer rest s)
    end.
Proof.
  intros C D N H. unfold onData.
  set (s1 := set_rxBuffer _ s).
  assert (C1 : cutAt DELIMITER (_rxBuffer s1) = Some (u, rest))
    by (subst s1; destruct s; exact C).
  assert (E : set_rxBuffer rest s1 = set_rxBuffer rest s)
    by (subst s1; destruct s; reflexivity).
  rewrite (parse_first s1 u rest C1), E, D.
  assert (R : _responseParser doc = inr Unknown).
  { unfold _responseParser. destruct doc; try contradiction;
      destruct (getProp "heos" _) as [h|]; try reflexivity; rewrite H; reflexivity. }
  rewrite R. unfold routeResponse. cbn [classify].
  replace (_currentSendQueueItem (set_rxBuffer rest s))
    with (_currentSendQueueItem s) by (destruct s; reflexivity).
  destruct (_currentSendQueueItem s); reflexivity.
Qed.

Lemma emit_outcomes name v (s : State) :
  match emit name v s with
  | inl s' => length (uncaught s') = S (length (uncaught s))
  | inr s' => sameQueue s s' /\ uncaught s' = uncaught s
  end.
Proof.
  unfold emit. destruct (String.eqb name "error" && negb (errorListener s)).
  - destruct s; cbn. rewrite length_app. cbn. lia.
  - destruct s; cbn. repeat split.
Qed.

(** The three ways [_parseRxBuffer] has of dealing with a response: it goes
    on, it throws, or it settles the awaited call and returns. *)
Lemma route_outcomes r (s : State) :
  (snd (routeResponse r s) = true
   /\ sameQueue s (fst (routeResponse r s))
   /\ uncaught (fst (routeResponse r s)) = uncaught s)
  \/ (snd (routeResponse r s) = false
      /\ length (uncaught (fst (routeResponse r s))) = S (length (uncaught s)))
  \/ (snd (routeResponse r s) = false
      /\ exists x o, _currentSendQueueItem s = Some x
                     /\ fst (routeResponse r s) = settle (id x) o s).
Proof.
  unfold routeResponse. destruct (classify r) as [ev m| |].
  - pose proof (emit_outcomes "event" (EmitEvent ev m) s) as E1.
    destruct (emit "event" (EmitEvent ev m) s) as [s1|s1]; cbn [fst snd].
    + right. left. auto.
    + destruct E1 as [A1 A2].
      pose proof (emit_outcomes ev (EmitMessage m) s1) as E2.
      destruct (emit ev (EmitMessage m) s1) as [s2|s2]; cbn [fst snd].
      * right. left. split; [reflexivity|]. congruence.
      * left. destruct E2 as [B1 B2]. split; [reflexivity|].
        split; [exact (sameQueue_trans _ _ _ A1 B1)|congruence].
  - destruct (_currentSendQueueItem s) as [x|] eqn:Cur.
    + right. right. destruct r; cbn [fst snd]; eauto.
    + left. cbn [fst snd]. split; [reflexivity|]. split; [apply sameQueue_refl|reflexivity].
  - right. left. cbn [fst snd]. split; [reflexivity|].
    destruct s; cbn. rewrite length_app. cbn. lia.
Qed.

Lemma parse_stops (fuel : nat) : forall (s : State),
  String.length (_rxBuffer s) <= fuel ->
  (forall c, _currentSendQueueItem s = Some c -> settled s !! id c = None) ->
  let s' := parseRxBuffer JSON_parse fuel s in
  cutAt DELIMITER (_rxBuffer s') = None
  \/ (exists x, _currentSendQueueItem s = Some x
                /\ is_Some (settled s' !! id x)
                /\ pending s' = (pending s ++ [id x])%list)
  \/ length (uncaught s') = S (length (uncaught s)).
Proof.
  induction fuel as [|fuel IH]; intros s L U.
  - left. cbn. destruct (cutAt DELIMITER (_rxBuffer s)) as [[u rest]|] eqn:C;
      [apply cutAt_shorter in C; lia|reflexivity].
  - cbn [parseRxBuffer].
    destruct (cutAt DELIMITER (_rxBuffer s)) as [[u rest]|] eqn:C; [|left; exact C].
    apply cutAt_shorter in C.
    set (s1 := set_rxBuffer rest s).
    assert (F : sameQueue s s1 /\ uncaught s1 = uncaught s /\ _rxBuffer s1 = rest)
      by (subst s1; destruct s; cbn; repeat split).
    destruct F as (Q1 & U1 & B1).
    assert (T : forall x, length (uncaught (throw x s1)) = S (length (uncaught s))).
    { intros x. rewrite <- U1. destruct s1; cbn. rewrite length_app. cbn. lia. }
    destruct (JSON_parse u) as [doc|]; [|right; right; apply T].
    destruct (_responseParser doc) as [x|r]; [right; right; apply T|].
    destruct (frame_route r s1) as [Br _].
    destruct (route_outcomes r s1) as [(A & Q2 & U2)|[(A & U2)|(A & x & o & Cur & E)]];
      destruct (routeResponse r s1) as [s2 again]; cbn [fst snd] in *; subst again.
    + pose proof (sameQueue_trans _ _ _ Q1 Q2) as Q.
      destruct Q as (_ & _ & Q3 & _ & _ & _ & Q7 & Q8).
      destruct (IH s2) as [H|[(y & Hy & Hs & Hp)|H]].
      { rewrite Br, B1. lia. }
      { intros c Hc. rewrite Q7. apply U. congruence. }
      * left. exact H.
      * right. left. exists y. split; [congruence|]. split; [exact Hs|congruence].
      * right. right. congruence.
    + right. right. congruence.
    + right. left. destruct Q1 as (_ & _ & Q3 & _ & _ & _ & Q7 & Q8).
      exists x. split; [congruence|]. subst s2.
      assert (Ux : settled s1 !! id x = None) by (rewrite Q7; apply U; congruence).
      unfold settle. rewrite Ux. rewrite <- Q8. destruct s1; cbn.
      rewrite lookup_insert_eq. eauto.
Qed.

(** Why the parser stops: after a read, either the buffer holds no complete
    unit any more, or the last unit it took settled the awaited call, or
    the last unit it took made it throw. In the last two cases complete
    units can be left in the buffer until the next read. *)
Theorem parser_stops_for_a_reason (chunk : string) (s : State) :
  (forall c, _currentSendQueueItem s = Some c -> settled s !! id c = None) ->
  let s' := onData JSON_parse chunk s in
  cutAt DELIMITER (_rxBuffer s') = None
  \/ (exists x, _currentSendQueueItem s = Some x
                /\ is_Some (settled s' !! id x)
                /\ pending s' = (pending s ++ [id x])%list)
  \/ length (uncaught s') = S (length (uncaught s)).
Proof.
  intros U. unfold onData, _parseRxBuffer.
  set (s1 := set_rxBuffer _ s).
  assert (F : _currentSendQueueItem s1 = _currentSendQueueItem s
              /\ settled s1 = settled s /\ pending s1 = pending s
              /\ uncaught s1 = uncaught s)
    by (subst s1; destruct s; auto).
  destruct F as (F1 & F2 & F3 & F4).
  destruct (parse_stops (String.length (_rxBuffer s1)) s1) as [H|[(x & A & B & C)|H]].
  { lia. }
  { rewrite F1, F2. exact U. }
  - left. exact H.
  - right. left. exists x. split; [congruence|]. split; [exact B|congruence].
  - right. right. congruence.
Qed.

End MoreDispatchFacts.

(** ** The properties above at work *)

Lemma outcome_is_final_witness :
  settled (run Json.parse (queuedTurns ++ [Timeout]) initial) !! 0
  = Some (Rejected SendTimeout)
  /\ settled (run Json.parse ((queuedTurns ++ [Timeout])
                              ++ [replyChunk (volumeReply, volumeEnvelope)]) initial) !! 0
     = Some (Rejected SendTimeout).
Proof.
  assert (H : settled (run Json.parse (queuedTurns ++ [Timeout]) initial) !! 0
              = Some (Rejected SendTimeout)) by (vm_compute; reflexivity).
  split; [exact H|].
  exact (outcome_is_final Json.parse (queuedTurns ++ [Timeout])
           [replyChunk (volumeReply, volumeEnvelope)] 0 _ H).
Defined.

Lemma no_socket_rejects_all_witness :
  let s := run Json.parse [] initial in
  (_socket s = false /\ _currentSendQueueItem s = None)
  /\ written (turn Json.parse (Submit twoCommands) s) = written s.
Proof.
  intros s. split; [split; reflexivity|].
  exact (proj1 (no_socket_rejects_all Json.parse [] twoCommands eq_refl eq_refl)).
Defined.

Lemma isReply_volume : isReply Json.parse (volumeReply, volumeEnvelope).
Proof.
  split; [vm_compute; reflexivity|]. split; [|vm_compute; reflexivity].
  exists (default JNull (Json.parse volumeReply)). split; vm_compute; reflexivity.
Qed.

Lemma late_reply_settles_next_witness :
  let s := run Json.parse queuedTurns initial in
  let y := Item 1 "player/get_mute" [("pid", QueryString.QString "1")] in
  (timers s < nextId s /\ settled s !! timers s = None /\ _socket s = true
   /\ _rxBuffer s = "" /\ _sendQueue s = [y])
  /\ settled (run Json.parse [Timeout; replyChunk (volumeReply, volumeEnvelope)] s) !! id y
     = Some (Resolved volumeEnvelope).
Proof.
  intros s y.
  assert (L : timers s < nextId s) by (vm_compute; lia).
  assert (U : settled s !! timers s = None) by (vm_compute; reflexivity).
  assert (K : _socket s = true) by (vm_compute; reflexivity).
  assert (B : _rxBuffer s = "") by (vm_compute; reflexivity).
  assert (Q : _sendQueue s = [y]) by (vm_compute; reflexivity).
  split; [auto 10|].
  exact (proj2 (proj2 (late_reply_settles_next Json.parse queuedTurns
                         (volumeReply, volumeEnvelope) y [] L U K B Q isReply_volume))).
Defined.

Lemma split_chunk_reassembled_witness :
  cutAt DELIMITER (_rxBuffer awaitingState ++ "{") = None
  /\ onData Json.parse "}" (onData Json.parse "{" awaitingState)
     = onData Json.parse ("{" ++ "}") awaitingState.
Proof.
  assert (H : cutAt DELIMITER (_rxBuffer awaitingState ++ "{") = None)
    by (vm_compute; reflexivity).
  split; [exact H|].
  exact (split_chunk_reassembled Json.parse "{" "}" awaitingState H).
Defined.

Lemma events_in_one_chunk_witness :
  let evs := [(volumeEvent, "player_volume_changed", message volumeChanged);
              (volumeEvent, "player_volume_changed", message volumeChanged)] in
  (_rxBuffer awaitingState = ""
   /\ Forall (isEventUnit Json.parse (errorListener awaitingState)) evs
   /\ cutAt DELIMITER "{" = None)
  /\ _rxBuffer (onData Json.parse (frames (map (fun x => fst (fst x)) evs) "{")
                  awaitingState) = "{".
Proof.
  intros evs.
  assert (B : _rxBuffer awaitingState = "") by (vm_compute; reflexivity).
  assert (E : isEventUnit Json.parse (errorListener awaitingState)
                (volumeEvent, "player_volume_changed", message volumeChanged)).
  { split; [vm_compute; reflexivity|]. split; [|discriminate].
    exists (default JNull (Json.parse volumeEvent)), JNull.
    split; vm_compute; reflexivity. }
  assert (F : Forall (isEventUnit Json.parse (errorListener awaitingState)) evs)
    by (constructor; [exact E|constructor; [exact E|constructor]]).
  assert (T : cutAt DELIMITER "{" = None) by reflexivity.
  split; [auto|].
  exact (proj1 (proj2 (events_in_one_chunk Json.parse evs "{" awaitingState B F T))).
Defined.

Lemma undecodable_unit_stops_parsing_witness :
  let chunk := "oops" ++ DELIMITER ++ volumeEvent ++ DELIMITER in
  (cutAt DELIMITER (_rxBuffer idleState ++ chunk)
   = Some ("oops", volumeEvent ++ DELIMITER)
   /\ Json.parse "oops" = None)
  /\ onData Json.parse chunk idleState
     = throw SyntaxError (set_rxBuffer (volumeEvent ++ DELIMITER) idleState).
Proof.
  intros chunk.
  assert (C : cutAt DELIMITER (_rxBuffer idleState ++ chunk)
              = Some ("oops", volumeEvent ++ DELIMITER)) by (vm_compute; reflexivity).
  assert (P : Json.parse "oops" = None) by (vm_compute; reflexivity).
  split; [auto|].
  exact (proj1 (undecodable_unit_stops_parsing Json.parse chunk _ _ idleState C) P).
Defined.

Lemma unknown_response_rejects_awaited_witness :
  let chunk := "{}" ++ DELIMITER in
  (cutAt DELIMITER (_rxBuffer awaitingState ++ chunk) = Some ("{}", "")
   /\ Json.parse "{}" = Some (JObj []))
  /\ settled (onData Json.parse chunk awaitingState) !! 0
     = Some (Rejected UnknownHeosResponse).
Proof.
  intros chunk.
  assert (C : cutAt DELIMITER (_rxBuffer awaitingState ++ chunk) = Some ("{}", ""))
    by (vm_compute; reflexivity).
  assert (P : Json.parse "{}" = Some (JObj [])) by (vm_compute; reflexivity).
  split; [auto|].
  rewrite (unknown_response_rejects_awaited Json.parse chunk "{}" "" (JObj [])
             awaitingState C P); [|discriminate|exact I].
  vm_compute. reflexivity.
Defined.

Lemma parser_stops_for_a_reason_witness :
  let chunk := (volumeReply ++ DELIMITER) ++ (volumeEvent ++ DELIMITER) in
  let s' := onData Json.parse chunk awaitingState in
  (forall c, _currentSendQueueItem awaitingState = Some c ->
             settled awaitingState !! id c = None)
  /\ (cutAt DELIMITER (_rxBuffer s') = None
      \/ (exists x, _currentSendQueueItem awaitingState = Some x
                    /\ is_Some (settled s' !! id x)
                    /\ pending s' = (pending awaitingState ++ [id x])%list)
      \/ length (uncaught s') = S (length (uncaught awaitingState))).
Proof.
  intros chunk s'.
  assert (U : forall c, _currentSendQueueItem awaitingState = Some c ->
                        settled awaitingState !! id c = None).
  { intros c H. vm_compute in H. injection H as <-. vm_compute. reflexivity. }
  split; [exact U|].
  exact (parser_stops_for_a_reason Json.parse chunk awaitingState U).
Defined.

(** * Further properties of the query strings *)

Section MoreQueryStringFacts.
Import QueryString.

Lemma cut_none_app (c : ascii) (a b : string) :
  cut c a = None -> cut c (a ++ String c b) = Some (a, b).
Proof.
  induction a as [|d a IH]; intros H.
  - rewrite append_nil_l. cbn [cut]. rewrite Ascii.eqb_refl. reflexivity.
  - rewrite append_cons. cbn [cut] in *.
    destruct (Ascii.eqb d c); [discriminate|].
    destruct (cut c a) as [[x y]|]; [discriminate|].
    rewrite (IH eq_refl). reflexivity.
Qed.

Lemma segments_one (c : ascii) (a : string) :
  cut c a = None -> segments c a = [a].
Proof.
  induction a as [|d a IH]; intros H; [reflexivity|].
  cbn [cut segments] in *. destruct (Ascii.eqb d c); [discriminate|].
  destruct (cut c a) as [[x y]|]; [discriminate|].
  rewrite (IH eq_refl). reflexivity.
Qed.

Lemma segments_app (c : ascii) (a b : string) :
  cut c a = None -> segments c (a ++ String c b) = a :: segments c b.
Proof.
  induction a as [|d a IH]; intros H.
  - rewrite append_nil_l. cbn [segments]. rewrite Ascii.eqb_refl. reflexivity.
  - rewrite append_cons. cbn [cut segments] in *.
    destruct (Ascii.eqb d c); [discriminate|].
    destruct (cut c a) as [[x y]|]; [discriminate|].
    rewrite (IH eq_refl). reflexivity.
Qed.

Lemma cut_app_none (c : ascii) (a b : string) :
  cut c a = None -> cut c b = None -> cut c (a ++ b) = None.
Proof.
  induction a as [|d a IH]; intros Ha Hb; [exact Hb|].
  rewrite append_cons. cbn [cut] in *.
  destruct (Ascii.eqb d c); [discriminate|].
  destruct (cut c a) as [[x y]|]; [discriminate|].
  rewrite (IH eq_refl Hb). reflexivity.
Qed.

(** The segments of fields joined by [&] are the fields, when no field
    holds an [&]. *)
Lemma segments_join (fs : list string) :
  fs <> [] -> Forall (fun f => cut "&" f = None) fs ->
  segments "&" (join "&" fs) = fs.
Proof.
  induction fs as [|f fs IH]; intros N F; [contradiction|].
  inversion F as [|? ? Hf F']; subst.
  destruct fs as [|g fs]; [apply segments_one, Hf|].
  change (join "&" (f :: g :: fs)) with (f ++ "&" ++ join "&" (g :: fs)).
  change ("&" ++ join "&" (g :: fs)) with (String "&" (join "&" (g :: fs))).
  rewrite segments_app by exact Hf. rewrite IH; [reflexivity|discriminate|exact F'].
Qed.

Lemma join_nonempty (fs : list string) :
  fs <> [] -> Forall (fun f => f <> "") fs -> join "&" fs <> "".
Proof.
  destruct fs as [|f fs]; intros N F; [contradiction|].
  inversion F as [|? ? Hf F']; subst.
  destruct fs; [exact Hf|].
  change (join "&" (f :: s :: fs)) with (f ++ "&" ++ join "&" (s :: fs)).
  destruct f; [contradiction|]. rewrite append_cons. discriminate.
Qed.

(** A message made of fields [key=value] joined by [&], in which no key
    holds [&] or [=] and no value holds [&], is parsed into the decoded
    pairs, in order. *)
Lemma pairs_join (l : list (string * string)) :
  length l <= maxKeys ->
  Forall (fun ab => cut "&" (fst ab) = None /\ cut "=" (fst ab) = None
                    /\ cut "&" (snd ab) = None) l ->
  pairs (join "&" (map (fun ab => fst ab ++ "=" ++ snd ab) l))
  = map (fun ab => (decodeStr (fst ab), decodeStr (snd ab))) l.
Proof.
  intros L F. destruct l as [|ab0 l0] eqn:El; [reflexivity|]. rewrite <- El in *.
  assert (Nl : l <> []) by (rewrite El; discriminate). clear El ab0 l0.
  set (fs := map (fun ab => fst ab ++ "=" ++ snd ab) l).
  assert (Ffs : Forall (fun f => cut "&" f = None) fs).
  { subst fs. apply Forall_forall. intros f Hf.
    apply list_elem_of_In, in_map_iff in Hf. destruct Hf as (ab & <- & Hab).
    rewrite Forall_forall in F. destruct (F ab) as (A & _ & B);
      [apply list_elem_of_In, Hab|].
    apply cut_app_none; [exact A|]. apply cut_app_none; [reflexivity|exact B]. }
  assert (Nfs : fs <> []) by (subst fs; destruct l; [contradiction|discriminate]).
  assert (Efs : Forall (fun f => f <> "") fs).
  { subst fs. apply Forall_forall. intros f Hf.
    apply list_elem_of_In, in_map_iff in Hf. destruct Hf as (ab & <- & _).
    destruct (fst ab); [rewrite append_nil_l|rewrite append_cons]; discriminate. }
  unfold pairs. pose proof (join_nonempty fs Nfs Efs) as J.
  destruct (join "&" fs) eqn:E; [contradiction|]. rewrite <- E.
  rewrite (segments_join fs Nfs Ffs).
  rewrite take_ge by (subst fs; rewrite length_map; exact L).
  assert (Hfilter : filter (fun seg => negb (String.eqb seg "")) fs = fs).
  { clear - Efs. induction fs as [|f fs IH]; [reflexivity|].
    inversion Efs as [|? ? Hf F']; subst.
    rewrite filter_cons_True; [rewrite (IH F'); reflexivity|].
    destruct (String.eqb f "") eqn:Eq; [apply String.eqb_eq in Eq; contradiction|exact I]. }
  rewrite Hfilter. subst fs. rewrite map_map.
  apply map_ext_in. intros ab Hab.
  rewrite Forall_forall in F. destruct (F ab) as (_ & A & _);
    [apply list_elem_of_In, Hab|].
  unfold keyValue.
  change (fst ab ++ "=" ++ snd ab) with (fst ab ++ String "=" (snd ab)).
  rewrite (cut_none_app "=" _ _ A). reflexivity.
Qed.

Lemma plain_clean (a : string) :
  plain a = true ->
  cut "&" a = None /\ cut "=" a = None /\ decodeStr a = a.
Proof.
  unfold decodeStr. induction a as [|c a IH]; intros H; [repeat split|].
  cbn [plain] in H. apply andb_prop in H as [H Ha].
  apply andb_prop in H as [H H4]. apply andb_prop in H as [H H3].
  apply andb_prop in H as [H1 H2].
  apply negb_true_iff in H1, H2, H3, H4.
  destruct (IH Ha) as (A & B & C).
  cbn [cut plus_to_space]. rewrite H1, H2, H3, A, B.
  rewrite unescape_plain by exact H4. rewrite C. repeat split.
Qed.

Lemma raw_fields (q : list (string * qsvalue)) :
  raw q = join "&" (map (fun ab => fst ab ++ "=" ++ snd ab) (asPairs q)).
Proof. unfold raw, asPairs. rewrite map_map. reflexivity. Qed.

Lemma valuesOf_absent (k : string) (l : list (string * string)) :
  ~ In k (map fst l) -> valuesOf k l = [].
Proof.
  unfold valuesOf. induction l as [|[a b] l IH]; intros N; [reflexivity|].
  cbn [map fst In] in N.
  rewrite filter_cons_False.
  - apply IH. tauto.
  - cbn [fst]. destruct (String.eqb a k) eqn:E; [|exact (fun x => x)].
    apply String.eqb_eq in E. tauto.
Qed.

Lemma valuesOf_unique (k v : string) (l : list (string * string)) :
  NoDup (map fst l) -> In (k, v) l -> valuesOf k l = [v].
Proof.
  unfold valuesOf. induction l as [|[a b] l IH]; intros D H; [destruct H|].
  cbn [map fst] in D. apply NoDup_cons in D as [Na D].
  destruct H as [H|H].
  - injection H as -> ->.
    rewrite filter_cons_True by (cbn [fst]; rewrite String.eqb_refl; exact I).
    cbn [map snd]. f_equal. apply (valuesOf_absent k l).
    intros X. apply Na, list_elem_of_In, X.
  - rewrite filter_cons_False; [exact (IH D H)|].
    cbn [fst]. destruct (String.eqb a k) eqn:E; [|exact (fun x => x)].
    apply String.eqb_eq in E. subst a. exfalso. apply Na, list_elem_of_In.
    apply in_map_iff. exists (k, v). split; [reflexivity|exact H].
Qed.

Lemma join_app (a b : list string) :
  a <> [] -> b <> [] ->
  join "&" (a ++ b) = join "&" a ++ "&" ++ join "&" b.
Proof.
  intros Na Nb. induction a as [|x a IH]; [contradiction|].
  destruct a as [|y a].
  - destruct b; [contradiction|]. reflexivity.
  - change (join "&" ((x :: y :: a) ++ b)) with (x ++ "&" ++ join "&" ((y :: a) ++ b)).
    rewrite IH by discriminate.
    change (join "&" (x :: y :: a)) with (x ++ "&" ++ join "&" (y :: a)).
    rewrite !append_assoc. reflexivity.
Qed.

Lemma raw_split (k v k' v' : string) :
  raw [(k, QString (v ++ "&" ++ k' ++ "=" ++ v'))]
  = raw [(k, QString v); (k', QString v')].
Proof.
  unfold raw, field. cbn [map join fst snd stringifyPrimitive].
  rewrite !append_assoc. reflexivity.
Qed.

Lemma raw_app (a b : list (string * qsvalue)) :
  a <> [] -> b <> [] -> raw (a ++ b) = raw a ++ "&" ++ raw b.
Proof.
  intros Na Nb. unfold raw. rewrite map_app. apply join_app.
  - destruct a; [contradiction|discriminate].
  - destruct b; [contradiction|discriminate].
Qed.

Lemma raw_congr (q1 a b q2 : list (string * qsvalue)) :
  a <> [] -> b <> [] -> raw a = raw b -> raw (q1 ++ a ++ q2) = raw (q1 ++ b ++ q2).
Proof.
  intros Na Nb E.
  assert (M : raw (a ++ q2) = raw (b ++ q2)).
  { destruct q2 as [|x q2]; [rewrite !app_nil_r; exact E|].
    rewrite !raw_app by (assumption || discriminate). rewrite E. reflexivity. }
  destruct q1 as [|y q1]; [exact M|].
  rewrite (raw_app (y :: q1) (a ++ q2)), (raw_app (y :: q1) (b ++ q2)), M;
    try discriminate; [reflexivity| |].
  - destruct b; [contradiction|discriminate].
  - destruct a; [contradiction|discriminate].
Qed.

(** What a device that echoes the parameters of a request in the message of
    its reply gets decoded: when no key and no value holds [&], [=], [+] or
    [%] and the keys are distinct, the message that is the parameter text of
    the request line decodes to exactly the parameters, each as one string,
    and to nothing at any other key. *)
Theorem echoed_parameters_decode (q : list (string * qsvalue)) :
  length q <= maxKeys ->
  NoDup (map fst q) ->
  Forall (fun kv => plain (fst kv) = true
                    /\ plain (stringifyPrimitive (snd kv)) = true) q ->
  (forall k v, In (k, v) q ->
     parseMessage (JStr (unescape (stringify q))) !! k
     = Some (One (stringifyPrimitive v)))
  /\ (forall k, ~ In k (map fst q) ->
        parseMessage (JStr (unescape (stringify q))) !! k = None).
Proof.
  intros L D F.
  assert (P : pairs (unescape (stringify q)) = asPairs q).
  { rewrite unescape_stringify, raw_fields, pairs_join.
    - rewrite <- (map_id (asPairs q)) at 2. apply map_ext_in.
      intros [a b] Hab. unfold asPairs in Hab. apply in_map_iff in Hab.
      destruct Hab as (kv & E & Hkv). injection E as <- <-.
      rewrite Forall_forall in F. destruct (F kv) as [Fa Fb];
        [apply list_elem_of_In, Hkv|].
      cbn [fst snd]. destruct (plain_clean _ Fa) as (_ & _ & ->).
      destruct (plain_clean _ Fb) as (_ & _ & ->). reflexivity.
    - unfold asPairs. rewrite length_map. exact L.
    - apply Forall_forall. intros ab Hab. unfold asPairs in Hab.
      apply list_elem_of_In, in_map_iff in Hab.
      destruct Hab as (kv & <- & Hkv).
      rewrite Forall_forall in F. destruct (F kv) as [Fa Fb];
        [apply list_elem_of_In, Hkv|].
      cbn [fst snd]. destruct (plain_clean _ Fa) as (A & B & _).
      destruct (plain_clean _ Fb) as (C & _ & _). repeat split; assumption. }
  assert (K : map fst (asPairs q) = map fst q).
  { unfold asPairs. rewrite map_map. reflexivity. }
  split.
  - intros k v H. change (parse (unescape (stringify q)) !! k
                          = Some (One (stringifyPrimitive v))).
    rewrite parse_collects, P.
    rewrite (valuesOf_unique k (stringifyPrimitive v)); [reflexivity| |].
    + rewrite K. exact D.
    + unfold asPairs. apply in_map_iff. exists (k, v). split; [reflexivity|exact H].
  - intros k H. change (parse (unescape (stringify q)) !! k = None).
    rewrite parse_collects, P, valuesOf_absent; [reflexivity|].
    rewrite K. exact H.
Qed.

(** The request line does not keep a parameter apart from the next: a
    value that holds [&key=value] is written as the line of the request
    that has that key and value as a parameter of its own, wherever the
    parameter stands among the others. *)
Theorem separator_in_value_adds_parameter (cmd : string)
    (q1 q2 : list (string * qsvalue)) (k v k' v' : string) :
  requestLine cmd (q1 ++ [(k, QString (v ++ "&" ++ k' ++ "=" ++ v'))] ++ q2)
  = requestLine cmd (q1 ++ [(k, QString v); (k', QString v')] ++ q2).
Proof.
  unfold requestLine. rewrite !unescape_stringify.
  rewrite (raw_congr q1 [(k, QString (v ++ "&" ++ k' ++ "=" ++ v'))]
             [(k, QString v); (k', QString v')] q2);
    [reflexivity|discriminate|discriminate|apply raw_split].
Qed.

(** Nor does it keep the request on one line: with CR-LF in the value of
    its last parameter, the text given to the socket is a first line that
    ends where the value is broken, and the rest of the value as a line of
    its own. *)
Theorem line_break_in_value_ends_request (cmd k v w : string)
    (q : list (string * qsvalue)) :
  cutAt DELIMITER ("heos://" ++ cmd ++ "?" ++ raw (q ++ [(k, QString v)])) = None ->
  cutAt DELIMITER (requestLine cmd (q ++ [(k, QString (v ++ DELIMITER ++ w))]))
  = Some ("heos://" ++ cmd ++ "?" ++ raw (q ++ [(k, QString v)]), w ++ DELIMITER).
Proof.
  intros H. unfold requestLine. rewrite unescape_stringify.
  assert (E : raw (q ++ [(k, QString (v ++ DELIMITER ++ w))])
              = raw (q ++ [(k, QString v)]) ++ DELIMITER ++ w).
  { destruct q as [|x q].
    - unfold raw, field. cbn [app map join fst snd stringifyPrimitive].
      rewrite !append_assoc. reflexivity.
    - rewrite !raw_app by discriminate.
      unfold raw at 2 4. unfold field. cbn [map join fst snd stringifyPrimitive].
      rewrite !append_assoc. reflexivity. }
  rewrite E.
  replace ("heos://" ++ cmd ++ "?" ++ (raw (q ++ [(k, QString v)]) ++ DELIMITER ++ w) ++ DELIMITER)
    with (("heos://" ++ cmd ++ "?" ++ raw (q ++ [(k, QString v)])) ++ DELIMITER ++ (w ++ DELIMITER)).
  - apply cutAt_frame, H.
  - rewrite !append_assoc. reflexivity.
Qed.

End MoreQueryStringFacts.

(** * The handshake command *)

(** [systemRegisterForChangeEvents] on a connection that awaits nothing
    writes one request at once, and asks for events only when its flag is
    absent or the boolean [true]: any other value, a number or a string or
    [null], turns the events off. *)
Theorem register_for_events_needs_true (enabled : option json) (s : State) :
  _socket s = true -> _currentSendQueueItem s = None -> _sendQueue s = [] ->
  let s' := snd (systemRegisterForChangeEvents enabled s) in
  exists flag,
    written s'
    = (written s
       ++ [(nextId s,
            ("heos://system/register_for_change_events?enable=" ++ flag
             ++ DELIMITER)%string)])%list
    /\ (flag = "on" \/ flag = "off")
    /\ (flag = "on" <-> enabled = None \/ enabled = Some (JBool true))
    /\ (exists x, _currentSendQueueItem s' = Some x /\ id x = nextId s)
    /\ _sendQueue s' = [].
Proof.
  intros Sock Cur Q.
  exists (if strictlyTrue enabled then "on" else "off").
  assert (W : let s' := snd (systemRegisterForChangeEvents enabled s) in
              written s'
              = (written s
                 ++ [(nextId s,
                      requestLine "system/register_for_change_events"
                        [("enable", QueryString.QString
                                      (if strictlyTrue enabled then "on" else "off"))])])%list
              /\ (exists x, _currentSendQueueItem s' = Some x /\ id x = nextId s)
              /\ _sendQueue s' = []).
  { unfold systemRegisterForChangeEvents, send. cbn [snd].
    unfold _nextSendQueueItem.
    destruct s as []. cbn in Sock, Cur, Q. subst.
    cbn -[requestLine]. repeat split. eexists. split; reflexivity. }
  cbn zeta in W |- *. destruct W as (W & X & Y).
  split; [|split; [|split; [|split]]].
  - rewrite W. unfold requestLine. rewrite unescape_stringify.
    destruct (strictlyTrue enabled); reflexivity.
  - destruct (strictlyTrue enabled); auto.
  - destruct enabled as [[| [] | | | |]|]; cbn [strictlyTrue]; split; intros H;
      try reflexivity; try discriminate; auto;
      destruct H as [H|H]; discriminate.
  - exact X.
  - exact Y.
Qed.
